(** * Futhark multicore runtime: [rts/c/multicore_defs.h]

    A shallow embedding of the definitions of [multicore_defs.h] and the
    properties of its pseudo-random generator, its bit-field helpers and the
    packed grain state built on them.

    Conventions.  A C integer of width [w] is a [Z]; every place where C
    converts to a fixed-width type is written out with one of the wrapping
    functions of [Module CInt].  A C [float] is an IEEE-754 binary32 number,
    represented by the Standard Library's [spec_float] at precision 24 and
    maximal exponent 128. *)

From Stdlib Require Import ZArith Lia Bool.
From Stdlib Require Import SpecFloat.
From stdpp Require Import list relations.

Local Open Scope Z_scope.

(** ** Fixed-width integers *)

Module CInt.

(** Conversion to [unsigned int] / [uint32_t]. *)
Definition to_uint32 (z : Z) : Z := z mod 2 ^ 32.

(** Conversion to [uint64_t]. *)
Definition to_uint64 (z : Z) : Z := z mod 2 ^ 64.

(** Conversion to [int32_t] (two's complement wrap-around). *)
Definition to_int32 (z : Z) : Z := (z + 2 ^ 31) mod 2 ^ 32 - 2 ^ 31.

(** Conversion to [int64_t] (two's complement wrap-around). *)
Definition to_int64 (z : Z) : Z := (z + 2 ^ 63) mod 2 ^ 64 - 2 ^ 63.

Definition is_int32 (z : Z) : Prop := - 2 ^ 31 <= z < 2 ^ 31.
Definition is_int64 (z : Z) : Prop := - 2 ^ 63 <= z < 2 ^ 63.

End CInt.

(** ** The pseudo-random generator: [g_seed], [fast_srand], [fast_rand] *)

Module Rng.
Import CInt.

(** The file-level mutable variables of the header.  [kappa] is never
    assigned and is not part of the state. *)
Record globals : Type := mkGlobals {
  scheduler_error : Z;   (* static volatile int scheduler_error *)
  g_seed : Z             (* static unsigned int g_seed *)
}.

(** [static inline void fast_srand(int seed) { g_seed = seed; }] *)
Definition fast_srand (seed : Z) (st : globals) : globals :=
  {| scheduler_error := scheduler_error st;
     g_seed := to_uint32 seed |}.

(** [g_seed = (214013*g_seed+2531011); return (g_seed>>16)&0x7FFF;]
    The arithmetic is [unsigned int] arithmetic, hence modulo [2^32] on the
    platforms of the header, where [unsigned int] has 32 bits. *)
Definition fast_rand (st : globals) : Z * globals :=
  let g := to_uint32 (214013 * g_seed st + 2531011) in
  (Z.land (Z.shiftr g 16) 32767,
   {| scheduler_error := scheduler_error st; g_seed := g |}).

(** [n] successive calls of [fast_rand]: the outputs in call order and the
    state after the last call. *)
Fixpoint fast_rand_n (n : nat) (st : globals) : list Z * globals :=
  match n with
  | O => ([], st)
  | S n' =>
      let '(r, st1) := fast_rand st in
      let '(rs, st2) := fast_rand_n n' st1 in
      (r :: rs, st2)
  end.

(** The output sequence written as a function of the seed word alone. *)
Fixpoint lcg_outputs (n : nat) (g : Z) : list Z :=
  match n with
  | O => []
  | S n' =>
      let g' := to_uint32 (214013 * g + 2531011) in
      Z.land (Z.shiftr g' 16) 32767 :: lcg_outputs n' g'
  end.

(** The state after [k] successive calls of [fast_rand]. *)
Definition fast_rand_iter (k : N) (st : globals) : globals :=
  N.iter k (fun s => snd (fast_rand s)) st.

(** The seed update of [fast_rand], [g_seed = (214013*g_seed+2531011)], on
    the seed word alone. *)
Definition next (g : Z) : Z := to_uint32 (214013 * g + 2531011).

(** The seed update [g_seed = 214013*g_seed+2531011] composed [2^j] times is
    again of the form [g_seed = A*g_seed+C]; [A] and [C], by repeated
    squaring. *)
Fixpoint seed_update_pow2 (j : nat) : Z * Z :=
  match j with
  | O => (214013, 2531011)
  | S j' =>
      let '(A, C) := seed_update_pow2 j' in
      (to_uint32 (A * A), to_uint32 (A * C + C))
  end.

End Rng.

(** ** Bit fields and the packed grain state *)

Module Grain.
Import CInt.

(** The C type [float]. *)
Definition float : Type := spec_float.
Definition prec : Z := 24.
Definition emax : Z := 128.
Definition is_float (x : float) : Prop := valid_binary prec emax x = true.

(** [int64_t pick_bits(int lsb, int sz, int64_t value)].  The shifts are
    those of C for [0 <= lsb < 64] and [0 <= sz]; outside that range C
    leaves them undefined and the model follows [Z.shiftr]/[Z.shiftl]. *)
Definition pick_bits (lsb sz value : Z) : Z :=
  let v := to_uint64 value in
  let v := Z.shiftr v lsb in
  let v :=
    if sz <? 64 then
      let mask := 1 in
      let mask := to_uint64 (Z.shiftl mask sz) in
      let mask := to_uint64 (mask - 1) in
      Z.land v mask
    else v in
  to_int64 v.

(** The conversion [(int32_t)C] of a [float]: the fractional part is
    discarded; the conversion is undefined ([None]) for a NaN, an infinity
    and a value whose integral part is not an [int32_t].  For a negative
    exponent [Z.shiftl] shifts right, which truncates the magnitude. *)
Definition float_to_int32 (C : float) : option Z :=
  match C with
  | S754_zero _ => Some 0
  | S754_finite s m e =>
      let t := cond_Zopp s (Z.shiftl (Zpos m) e) in
      if (- 2 ^ 31 <=? t) && (t <? 2 ^ 31) then Some t else None
  | S754_infinity _ => None
  | S754_nan => None
  end.

(** The conversion [(float)z] of an [int64_t]: the nearest [float], ties to
    even. *)
Definition int64_to_float (z : Z) : float :=
  binary_normalize prec emax z 0 false.

(** [int64_t nmax_64_shifted = (int64_t) nmax << 32;
     return nmax_64_shifted | (int32_t)C;]
    The [int32_t] operand of [|] is promoted to [int64_t], that is, sign
    extended; on two's complement words [|] is [Z.lor]. *)
Definition pack_vals (C : float) (nmax : Z) : option Z :=
  match float_to_int32 C with
  | Some c =>
      let nmax_64_shifted := to_int64 (Z.shiftl nmax 32) in
      Some (Z.lor nmax_64_shifted c)
  | None => None
  end.

(** [int32_t masked = pick_bits(0, size, val); return masked << lsb;]
    [masked] is an [int], so the shift is a 32-bit shift: C leaves it
    undefined ([None]) for a count outside [0, 31] and for a product
    [masked * 2^lsb] that is not an [int]; as in [pack_vals], the shift is
    otherwise the multiplication by [2^lsb].  The [int] result is returned as
    an [int64_t] of the same value. *)
Definition put_bits (lsb size val : Z) : option Z :=
  let masked := to_int32 (pick_bits 0 size val) in
  let shifted := Z.shiftl masked lsb in
  if (0 <=? lsb) && (lsb <? 32) && (- 2 ^ 31 <=? shifted) && (shifted <? 2 ^ 31)
  then Some shifted
  else None.

(** [return (float)pick_bits(0, 32, val);] *)
Definition get_C (val : Z) : float := int64_to_float (pick_bits 0 32 val).

(** [return (int32_t)pick_bits(32, 32, val);] *)
Definition get_nmax (val : Z) : Z := to_int32 (pick_bits 32 32 val).

(** The C comparison [x == y] on [float]. *)
Definition float_eq (x y : float) : bool := SFeqb x y.

(** The reading of the specification, "the low 32 bits interpreted as
    floating": the 32-bit pattern [b] taken as the IEEE-754 binary32
    encoding of a [float] (sign bit 31, biased exponent in bits 23..30,
    fraction in bits 0..22).  The code does not contain this function; it
    is here to be compared with [get_C]. *)
Definition float_of_bits (b : Z) : float :=
  let sign := Z.testbit b 31 in
  let ex := Z.shiftr b 23 mod 2 ^ 8 in
  let frac := b mod 2 ^ 23 in
  if ex =? 0 then
    match frac with
    | Zpos m => S754_finite sign m (-149)
    | _ => S754_zero sign
    end
  else if ex =? 255 then
    if frac =? 0 then S754_infinity sign else S754_nan
  else
    match 2 ^ 23 + frac with
    | Zpos m => S754_finite sign m (ex - 150)
    | _ => S754_nan
    end.

(** Some [float] constants: 0.5f, 1.0f and -1.0f. *)
Definition float_half : float := S754_finite false 8388608 (-24).
Definition float_one : float := S754_finite false 8388608 (-23).
Definition float_minus_one : float := S754_finite true 8388608 (-23).

(** The exact value [m * 2^e] of a [float] when it is an integer, that is,
    when shifting [m] by [e] and back loses no bit. *)
Definition float_int_value (C : float) : option Z :=
  match C with
  | S754_zero _ => Some 0
  | S754_finite s m e =>
      if Z.shiftl (Z.shiftl (Zpos m) e) (- e) =? Zpos m
      then Some (cond_Zopp s (Z.shiftl (Zpos m) e))
      else None
  | S754_infinity _ => None
  | S754_nan => None
  end.

End Grain.

(** ** Tasks, subtasks and the initial split

    The header declares the data ([enum scheduling], [struct subtask],
    [struct scheduler_info], [struct scheduler_task]); the functions that
    fill them in are in other files of the runtime. *)

Module Sched.
Import CInt.

(** [enum scheduling { DYNAMIC, STATIC }] *)
Inductive scheduling : Type := DYNAMIC | STATIC.

(** [struct subtask]: the iteration range, the [chunkable] flag, the
    originating worker and the id.  The function pointer, its argument block,
    the name and the pointers to the shared counters play no part in how the
    iteration space is divided. *)
Record subtask : Type := mkSubtask {
  start : Z;
  end_ : Z;            (* int end *)
  chunkable : Z;
  stolen_from : Z;
  subtask_id : Z       (* int id *)
}.

(** [struct scheduler_info], without the pointers to the running totals.
    The three counts are [int]s in the header; [info_fits] below is the
    range they have to stay in. *)
Record scheduler_info : Type := mkInfo {
  iter_pr_subtask : Z;
  remainder : Z;
  nsubtasks : Z;
  sched : scheduling
}.

(** [struct scheduler_task]: the iteration count and the scheduling mode. *)
Record scheduler_task : Type := mkTask {
  task_iterations : Z;   (* long int iterations *)
  task_sched : scheduling
}.

(** Modelled from the spec: the chunk length of the granularity controller,
    whose code is not in the header.  "The target chunk length is
    iterations_per_subtask ≈ κ / C (clamped to at least 1 and at most the
    task's total iteration count)"; "the planned chunk length is 100
    iterations [for κ = 1000, C = 10], clamped to ≤ task.iterations and
    ≤ nmax". *)
Definition chunk_length (kappa C nmax iterations : Z) : Z :=
  Z.max 1 (Z.min (kappa / C) (Z.min iterations nmax)).

(** Modelled from the spec: the computation of the [scheduler_info] of a
    submission, which is not in the header.  By the invariant of the spec,
    "nsubtasks * iter_pr_subtask + remainder == iterations with
    0 ≤ remainder < nsubtasks", iterations-per-subtask and remainder are the
    quotient and the remainder of the iteration count by the subtask count.
    STATIC: "iterations-per-subtask is fixed at iterations / num_threads
    (remainder distributed to the first subtasks)", one subtask per thread,
    as in the example of 17 iterations on 4 threads.  DYNAMIC: "the target
    chunk length is iterations_per_subtask ≈ κ / C": the subtask count is
    the number of chunks of the target length that cover the iterations, so
    that iterations-per-subtask is the target length when it divides the
    iteration count and the nearest length below it otherwise. *)
Definition plan (num_threads kappa C nmax : Z) (task : scheduler_task)
  : scheduler_info :=
  let n := task_iterations task in
  match task_sched task with
  | STATIC =>
      {| iter_pr_subtask := n / num_threads;
         remainder := n mod num_threads;
         nsubtasks := num_threads;
         sched := STATIC |}
  | DYNAMIC =>
      let q := chunk_length kappa C nmax n in
      let ns := (n + q - 1) / q in
      {| iter_pr_subtask := n / ns;
         remainder := n mod ns;
         nsubtasks := ns;
         sched := DYNAMIC |}
  end.

(** The fields of [struct scheduler_info] are [int]s: the values a plan
    must stay within. *)
Definition info_fits (info : scheduler_info) : Prop :=
  is_int32 (iter_pr_subtask info) /\ is_int32 (remainder info) /\
  is_int32 (nsubtasks info).

(** The invariant the specification states for [scheduler_info]. *)
Definition info_invariant (info : scheduler_info) (iterations : Z) : Prop :=
  nsubtasks info * iter_pr_subtask info + remainder info = iterations /\
  0 <= remainder info < nsubtasks info.

(** Modelled from the spec: the length of the [i]-th subtask.  "The
    remainder is distributed to the first subtasks, one extra unit each." *)
Definition subtask_length (info : scheduler_info) (i : Z) : Z :=
  iter_pr_subtask info + (if i <? remainder info then 1 else 0).

(** The sum of the lengths given to the subtasks [ids]. *)
Definition lengths_sum (info : scheduler_info) (ids : list Z) : Z :=
  foldr (fun i acc => subtask_length info i + acc) 0 ids.

(** Modelled from the spec: the initial split, which is not in the header.
    Subtask [i] starts where subtask [i - 1] ends; STATIC subtasks are "marked
    non-chunkable (chunkable = 0)", DYNAMIC ones chunkable; [tid] is the
    submitting worker. *)
Fixpoint spawn_from (info : scheduler_info) (tid from : Z) (ids : list Z)
  : list subtask :=
  match ids with
  | [] => []
  | i :: ids' =>
      let upto := from + subtask_length info i in
      {| start := from; end_ := upto;
         chunkable := match sched info with STATIC => 0 | DYNAMIC => 1 end;
         stolen_from := tid; subtask_id := i |}
      :: spawn_from info tid upto ids'
  end.

Definition spawn (info : scheduler_info) (tid : Z) : list subtask :=
  spawn_from info tid 0 (seqZ 0 (nsubtasks info)).

(** Modelled from the spec: the subtasks created by one submission.  "If
    task.iterations == 0, return success immediately", with zero subtasks. *)
Definition submit (num_threads kappa C nmax tid : Z) (task : scheduler_task)
  : list subtask :=
  if task_iterations task =? 0 then []
  else spawn (plan num_threads kappa C nmax task) tid.

(** Modelled from the spec: the re-split by a thief, which is not in the
    header.  A stolen subtask "whose chunkable flag is set and whose
    remaining iteration count exceeds the granularity target" is split at
    [mid] "into two contiguous ranges". *)
Definition split (target mid tid new_id : Z) (s : subtask)
  : option (subtask * subtask) :=
  if (0 <? chunkable s) && (target <? end_ s - start s)
     && (start s <? mid) && (mid <? end_ s)
  then Some ({| start := start s; end_ := mid; chunkable := chunkable s;
                stolen_from := stolen_from s; subtask_id := subtask_id s |},
             {| start := mid; end_ := end_ s; chunkable := chunkable s;
                stolen_from := tid; subtask_id := new_id |})
  else None.

(** One re-split somewhere among the subtasks of a task: the stolen subtask
    is replaced by its two halves. *)
Inductive resplit (target : Z) : list subtask -> list subtask -> Prop :=
| resplit_at l1 s l2 mid tid new_id a b :
    split target mid tid new_id s = Some (a, b) ->
    resplit target (l1 ++ s :: l2) (l1 ++ a :: b :: l2).

(** The sum of [end - start] over a list of subtasks. *)
Definition total_length (l : list subtask) : Z :=
  foldr (fun s acc => (end_ s - start s) + acc) 0 l.

(** The ranges of [l], in list order, go from [from] to [upto] without gap
    or overlap. *)
Fixpoint chain (from : Z) (l : list subtask) (upto : Z) : Prop :=
  match l with
  | [] => from = upto
  | s :: l' => start s = from /\ start s <= end_ s /\ chain (end_ s) l' upto
  end.

(** The ranges of [l], put in order, exactly tile [[0, n)]. *)
Definition tiles (l : list subtask) (n : Z) : Prop :=
  exists l', l ≡ₚ l' /\ chain 0 l' n.

(** The invariant of a subtask, "start ≤ end", with bounds that are [int]s
    as the fields [int start, end] of [struct subtask] are. *)
Definition subtask_fits (s : subtask) : Prop :=
  start s <= end_ s /\ is_int32 (start s) /\ is_int32 (end_ s).

End Sched.

(** ** The work-stealing deque

    The header declares [struct deque]; its operations are in other files of
    the runtime. *)

Module Deque.
Import Sched.

(** [struct deque].  The buffer holds [size] pointers to subtasks, [None]
    being a slot that holds none. *)
Record deque : Type := mkDeque {
  size : Z;
  buffer : list (option subtask);
  top : Z;
  bottom : Z;
  dead : bool
}.

(** Modelled from the spec: a deque as it is created, alive and empty, with
    a buffer of [capacity] slots. *)
Definition new_deque (capacity : Z) : deque :=
  {| size := capacity; buffer := replicate (Z.to_nat capacity) None;
     top := 0; bottom := 0; dead := false |}.

(** Modelled from the spec: "the number of live elements is bottom - top". *)
Definition live (d : deque) : Z := bottom d - top d.

(** Modelled from the spec: the use of the "backing buffer" by the "top
    index (stealers advance this)" and the "bottom index (owner advances
    this)", which only ever grow with the pushes and steals: the buffer is a
    ring, index [i] lives in slot [i mod size]. *)
Definition slot (sz i : Z) : nat := Z.to_nat (i mod sz).

(** The subtask at index [i], if the slot holds one. *)
Definition get (d : deque) (i : Z) : option subtask :=
  mjoin (buffer d !! slot (size d) i).

(** Modelled from the spec: "when push_bottom finds the buffer full, a new
    buffer of doubled capacity replaces it"; the live elements are copied
    to their slots in the new buffer. *)
Definition grow (d : deque) : deque :=
  let size' := 2 * size d in
  {| size := size';
     buffer := foldr (fun i b => <[slot size' i := get d i]> b)
                     (replicate (Z.to_nat size') None)
                     (seqZ (top d) (live d));
     top := top d; bottom := bottom d; dead := dead d |}.

(** Modelled from the spec: "push_bottom(subtask) — owner-only, never fails
    unless the deque is dead, in which case it fails with Shutdown" ([None]). *)
Definition push_bottom (x : subtask) (d : deque) : option deque :=
  if dead d then None
  else
    let d := if size d <=? live d then grow d else d in
    Some {| size := size d;
            buffer := <[slot (size d) (bottom d) := Some x]> (buffer d);
            top := top d; bottom := bottom d + 1; dead := dead d |}.

(** Modelled from the spec: "pop_bottom() — owner-only, returns the most
    recently pushed Subtask, or none if empty". *)
Definition pop_bottom (d : deque) : option subtask * deque :=
  if bottom d <=? top d then (None, d)
  else
    let b := bottom d - 1 in
    (get d b,
     {| size := size d; buffer := buffer d; top := top d; bottom := b;
        dead := dead d |}).

(** Modelled from the spec: "steal() — returns the oldest pending Subtask or
    none if empty or if a race with the owner's concurrent pop_bottom loses";
    [lost_race] says whether this attempt lost. *)
Definition steal (lost_race : bool) (d : deque) : option subtask * deque :=
  if bottom d <=? top d then (None, d)
  else if lost_race then (None, d)
  else
    (get d (top d),
     {| size := size d; buffer := buffer d; top := top d + 1;
        bottom := bottom d; dead := dead d |}).

(** Modelled from the spec: "mark_dead() sets the shutdown flag". *)
Definition mark_dead (d : deque) : deque :=
  {| size := size d; buffer := buffer d; top := top d; bottom := bottom d;
     dead := true |}.

(** The operations performed on one deque, in the order they take effect. *)
Inductive op : Type :=
| PushBottom (x : subtask)
| PopBottom
| Steal (lost_race : bool)
| MarkDead.

(** What a run has seen: the subtasks whose push was accepted and the
    subtasks handed out by [pop_bottom] and [steal], oldest first. *)
Record history : Type := mkHistory {
  pushed : list subtask;
  returned : list subtask
}.

Definition record_return (r : option subtask) (h : history) : history :=
  match r with
  | Some x => {| pushed := pushed h; returned := returned h ++ [x] |}
  | None => h
  end.

Definition step (o : op) (st : deque * history) : deque * history :=
  let '(d, h) := st in
  match o with
  | PushBottom x =>
      match push_bottom x d with
      | Some d' => (d', {| pushed := pushed h ++ [x]; returned := returned h |})
      | None => (d, h)
      end
  | PopBottom => let '(r, d') := pop_bottom d in (d', record_return r h)
  | Steal lost => let '(r, d') := steal lost d in (d', record_return r h)
  | MarkDead => (mark_dead d, h)
  end.

Definition run (ops : list op) (st : deque * history) : deque * history :=
  foldl (fun st o => step o st) st ops.

(** The subtasks still in the deque, oldest first. *)
Definition pending (d : deque) : list subtask :=
  omap (get d) (seqZ (top d) (live d)).

(** The representation invariant: the deque [d] holds exactly the subtasks
    [l], oldest first, at the indices [top d], [top d + 1], ... *)
Definition holds (d : deque) (l : list subtask) : Prop :=
  0 < size d /\
  length (buffer d) = Z.to_nat (size d) /\
  live d = Z.of_nat (length l) /\
  live d <= size d /\
  forall (k : nat) (x : subtask),
    l !! k = Some x -> get d (top d + Z.of_nat k) = Some x.

End Deque.

(** * Properties *)

Module CIntFacts.
Import CInt.

Lemma to_uint32_range z : 0 <= to_uint32 z < 2 ^ 32.
Proof. unfold to_uint32. apply Z.mod_pos_bound. lia. Qed.

Lemma to_uint64_range z : 0 <= to_uint64 z < 2 ^ 64.
Proof. unfold to_uint64. apply Z.mod_pos_bound. lia. Qed.

Lemma to_uint64_small z : 0 <= z < 2 ^ 64 -> to_uint64 z = z.
Proof. intros. unfold to_uint64. apply Z.mod_small. lia. Qed.

Lemma to_int64_small z : is_int64 z -> to_int64 z = z.
Proof.
  unfold is_int64, to_int64. intros.
  rewrite Z.mod_small by lia. lia.
Qed.

Lemma to_int32_small z : is_int32 z -> to_int32 z = z.
Proof.
  unfold is_int32, to_int32. intros.
  rewrite Z.mod_small by lia. lia.
Qed.

End CIntFacts.

Module RngProps.
Import CInt Rng CIntFacts.

Lemma land_ones_15 z : Z.land z 32767 = z mod 2 ^ 15.
Proof. change 32767 with (Z.ones 15). apply Z.land_ones. lia. Qed.

(** Three calls after [fast_srand(0)]. *)
Example fast_rand_after_seed_0 :
  fst (fast_rand_n 3 (fast_srand 0 (mkGlobals 0 12345))) = [38; 7719; 21238].
Proof. reflexivity. Qed.

(** C4.  Whatever the generator state, [fast_rand] returns an integer in
    the range [0, 32767]. *)
Theorem fast_rand_range (st : globals) : 0 <= fst (fast_rand st) <= 32767.
Proof.
  unfold fast_rand. cbn [fst].
  rewrite land_ones_15.
  pose proof (Z.mod_pos_bound (Z.shiftr (to_uint32 (214013 * g_seed st + 2531011)) 16)
                (2 ^ 15) ltac:(lia)).
  lia.
Qed.

Lemma fast_rand_n_outputs n :
  forall st, fst (fast_rand_n n st) = lcg_outputs n (g_seed st).
Proof.
  induction n as [|n IH]; intros st; [reflexivity|].
  cbn [fast_rand_n lcg_outputs]. unfold fast_rand.
  specialize (IH {| scheduler_error := scheduler_error st;
                    g_seed := to_uint32 (214013 * g_seed st + 2531011) |}).
  destruct (fast_rand_n n _) as [rs st2]. cbn [fst g_seed] in *.
  now rewrite IH.
Qed.

Lemma fast_rand_n_seed n :
  forall st1 st2, g_seed st1 = g_seed st2 ->
    g_seed (snd (fast_rand_n n st1)) = g_seed (snd (fast_rand_n n st2)).
Proof.
  induction n as [|n IH]; intros st1 st2 Hs; [exact Hs|].
  cbn [fast_rand_n]. unfold fast_rand.
  specialize (IH {| scheduler_error := scheduler_error st1;
                    g_seed := to_uint32 (214013 * g_seed st1 + 2531011) |}
                 {| scheduler_error := scheduler_error st2;
                    g_seed := to_uint32 (214013 * g_seed st2 + 2531011) |}).
  cbn [g_seed] in IH. rewrite Hs in IH. specialize (IH eq_refl).
  rewrite Hs.
  destruct (fast_rand_n n {| scheduler_error := scheduler_error st1 |}) as [rs1 s1].
  destruct (fast_rand_n n {| scheduler_error := scheduler_error st2 |}) as [rs2 s2].
  exact IH.
Qed.

(** C8.  The generator is deterministic.  Two states that agree on
    [g_seed] (they may differ elsewhere) give, for any number [n] of
    successive [fast_rand] calls, the same outputs and the same successor
    seed; the outputs are the function [lcg_outputs] of the seed alone; in
    particular this holds after [fast_srand] with one seed in each run. *)
Theorem fast_rand_deterministic (st1 st2 : globals) (seed : Z) (n : nat)
    (Hseed : g_seed st1 = g_seed st2) :
  fst (fast_rand_n n st1) = fst (fast_rand_n n st2) /\
  g_seed (snd (fast_rand_n n st1)) = g_seed (snd (fast_rand_n n st2)) /\
  fst (fast_rand_n n st1) = lcg_outputs n (g_seed st1) /\
  fst (fast_rand_n n (fast_srand seed st1)) =
    fst (fast_rand_n n (fast_srand seed st2)) /\
  g_seed (snd (fast_rand_n n (fast_srand seed st1))) =
    g_seed (snd (fast_rand_n n (fast_srand seed st2))).
Proof.
  repeat split.
  - now rewrite !fast_rand_n_outputs, Hseed.
  - now apply fast_rand_n_seed.
  - apply fast_rand_n_outputs.
  - now rewrite !fast_rand_n_outputs.
  - now apply fast_rand_n_seed.
Qed.

Lemma fast_rand_deterministic_witness :
  let st1 := {| scheduler_error := 0; g_seed := 42 |} in
  let st2 := {| scheduler_error := 1; g_seed := 42 |} in
  fst (fast_rand_n 3 st1) = fst (fast_rand_n 3 st2) /\
  g_seed (snd (fast_rand_n 3 st1)) = g_seed (snd (fast_rand_n 3 st2)) /\
  fst (fast_rand_n 3 st1) = lcg_outputs 3 (g_seed st1) /\
  fst (fast_rand_n 3 (fast_srand 7 st1)) =
    fst (fast_rand_n 3 (fast_srand 7 st2)) /\
  g_seed (snd (fast_rand_n 3 (fast_srand 7 st1))) =
    g_seed (snd (fast_rand_n 3 (fast_srand 7 st2))).
Proof.
  intros st1 st2. apply (fast_rand_deterministic st1 st2 7 3). reflexivity.
Defined.

End RngProps.

Module GrainProps.
Import CInt CIntFacts Grain.

(** [pick_bits] on its documented range, as division and remainder. *)
Lemma pick_bits_spec lsb sz value :
  0 <= lsb -> 0 <= sz < 64 ->
  pick_bits lsb sz value = (to_uint64 value / 2 ^ lsb) mod 2 ^ sz.
Proof.
  intros Hl Hs. unfold pick_bits.
  destruct (Z.ltb_spec sz 64) as [_|]; [|lia].
  rewrite Z.shiftl_1_l.
  assert (Hp : 0 < 2 ^ sz < 2 ^ 64).
  { split; [apply Z.pow_pos_nonneg; lia | apply Z.pow_lt_mono_r; lia]. }
  rewrite (to_uint64_small (2 ^ sz)) by lia.
  rewrite (to_uint64_small (2 ^ sz - 1)) by lia.
  replace (2 ^ sz - 1) with (Z.ones sz) by (rewrite Z.ones_equiv; lia).
  rewrite Z.land_ones by lia.
  rewrite Z.shiftr_div_pow2 by lia.
  apply to_int64_small. unfold is_int64.
  pose proof (Z.mod_pos_bound (to_uint64 value / 2 ^ lsb) (2 ^ sz) ltac:(lia)).
  assert (2 ^ sz <= 2 ^ 63) by (apply Z.pow_le_mono_r; lia).
  lia.
Qed.

(** C9.  For [lsb] in [0, 63] and [0 <= sz < 64], [pick_bits lsb sz value]
    is the unsigned reading of [value], shifted right by [lsb], modulo
    [2^sz]; hence it lies in [0, 2^sz). *)
Theorem pick_bits_shift_mod (lsb sz value : Z)
    (Hlsb : 0 <= lsb <= 63) (Hsz : 0 <= sz < 64) :
  pick_bits lsb sz value = Z.shiftr (to_uint64 value) lsb mod 2 ^ sz /\
  0 <= pick_bits lsb sz value < 2 ^ sz.
Proof.
  rewrite pick_bits_spec by lia.
  rewrite Z.shiftr_div_pow2 by lia.
  split; [reflexivity|].
  apply Z.mod_pos_bound. apply Z.pow_pos_nonneg; lia.
Qed.

Lemma pick_bits_shift_mod_witness :
  pick_bits 4 8 (-1) = Z.shiftr (to_uint64 (-1)) 4 mod 2 ^ 8 /\
  0 <= pick_bits 4 8 (-1) < 2 ^ 8.
Proof. apply (pick_bits_shift_mod 4 8 (-1)); lia. Defined.

End GrainProps.

(** ** Conversion of integers to [float] *)

Module FloatFacts.
Import CInt Grain.

Lemma iter_pos_iter {A} (f : A -> A) p :
  forall x, SpecFloat.iter_pos f p x = Pos.iter f x p.
Proof.
  induction p as [p IH|p IH|]; intros x; cbn [SpecFloat.iter_pos Pos.iter].
  - rewrite !IH. rewrite <- Pos.iter_swap. f_equal. now rewrite Pos.iter_swap.
  - now rewrite !IH.
  - reflexivity.
Qed.

Lemma digits2_pos_shift m d :
  digits2_pos (Pos.iter xO m d) = (digits2_pos m + d)%positive.
Proof.
  induction d as [|d IH] using Pos.peano_ind.
  - cbn. lia.
  - rewrite Pos.iter_succ. cbn [digits2_pos]. rewrite IH. lia.
Qed.

Lemma Zpos_iter_xO m d : Zpos (Pos.iter xO m d) = Z.shiftl (Zpos m) (Zpos d).
Proof.
  cbn [Z.shiftl].
  apply (Pos.iter_swap_gen _ _ Zpos xO (Z.mul 2)). reflexivity.
Qed.

(** Shifting out [d] zero bits loses nothing. *)
Lemma iter_shr_1_shift d : forall m,
  Pos.iter shr_1
    {| shr_m := Zpos (Pos.iter xO m d); shr_r := false; shr_s := false |} d
  = {| shr_m := Zpos m; shr_r := false; shr_s := false |}.
Proof.
  induction d as [|d IH] using Pos.peano_ind; intros m.
  - reflexivity.
  - rewrite Pos.iter_succ_r. rewrite Pos.iter_succ. cbn [shr_1 orb]. apply IH.
Qed.

Lemma bounded_inv m e :
  bounded prec emax m e = true ->
  fexp prec emax (Zpos (digits2_pos m) + e) = e /\ (e <=? emax - prec) = true.
Proof.
  unfold bounded, canonical_mantissa. intros H.
  apply andb_true_iff in H as [Hc Hb]. now apply Z.eqb_eq in Hc.
Qed.

Lemma binary_round_aux_canonical s m e :
  bounded prec emax m e = true ->
  binary_round_aux prec emax s (Zpos m) e loc_Exact = S754_finite s m e.
Proof.
  intros H. apply bounded_inv in H as [Hc Hb].
  unfold binary_round_aux, shr_fexp. cbn [Zdigits2 shr_record_of_loc].
  rewrite Hc, Z.sub_diag.
  cbn [shr shr_m loc_of_shr_record round_nearest_even Zdigits2 shr_record_of_loc].
  rewrite Hc, Z.sub_diag. cbn [shr shr_m]. now rewrite Hb.
Qed.

Lemma shl_align_up mx ex ex' : ex <= ex' -> shl_align mx ex ex' = (mx, ex).
Proof.
  intros H. unfold shl_align.
  destruct (ex' - ex) eqn:E; try reflexivity. lia.
Qed.

Lemma binary_round_canonical s m e :
  bounded prec emax m e = true ->
  binary_round prec emax s m e = S754_finite s m e.
Proof.
  intros Hb. destruct (bounded_inv _ _ Hb) as [Hc _].
  unfold binary_round. rewrite Hc, shl_align_up by lia.
  now apply binary_round_aux_canonical.
Qed.

Lemma binary_round_shifted s m d :
  bounded prec emax m (Zpos d) = true ->
  binary_round prec emax s (Pos.iter xO m d) 0 = S754_finite s m (Zpos d).
Proof.
  intros Hb. destruct (bounded_inv _ _ Hb) as [Hc Hle].
  assert (Hd : Zpos (digits2_pos (Pos.iter xO m d)) + 0
               = Zpos (digits2_pos m) + Zpos d).
  { rewrite digits2_pos_shift. lia. }
  unfold binary_round. rewrite Hd, Hc, shl_align_up by lia.
  unfold binary_round_aux, shr_fexp. cbn [Zdigits2 shr_record_of_loc].
  rewrite Hd, Hc, Z.sub_0_r. cbn [shr].
  rewrite iter_pos_iter, iter_shr_1_shift.
  cbn [shr_m loc_of_shr_record round_nearest_even Zdigits2 shr_record_of_loc].
  rewrite Z.add_0_l, Hc, Z.sub_diag. cbn [shr shr_m]. now rewrite Hle.
Qed.

Lemma binary_round_aligned s n d :
  bounded prec emax (Pos.iter xO n d) (Zneg d) = true ->
  binary_round prec emax s n 0 = S754_finite s (Pos.iter xO n d) (Zneg d).
Proof.
  intros Hb. destruct (bounded_inv _ _ Hb) as [Hc Hle].
  assert (Hd : Zpos (digits2_pos n) + 0
               = Zpos (digits2_pos (Pos.iter xO n d)) + Zneg d).
  { rewrite digits2_pos_shift. lia. }
  unfold binary_round. rewrite Hd, Hc.
  unfold shl_align. cbn [Z.sub Z.opp Z.add].
  now apply binary_round_aux_canonical.
Qed.

(** A [float] with an integer value is the conversion of that integer. *)
Lemma int64_to_float_exact m e :
  bounded prec emax m e = true ->
  Z.shiftl (Z.shiftl (Zpos m) e) (- e) = Zpos m ->
  int64_to_float (Z.shiftl (Zpos m) e) = S754_finite false m e.
Proof.
  intros Hb Hint. unfold int64_to_float.
  destruct e as [|d|d].
  - rewrite Z.shiftl_0_r. cbn [binary_normalize].
    now apply binary_round_canonical.
  - rewrite <- Zpos_iter_xO. cbn [binary_normalize].
    now apply binary_round_shifted.
  - remember (Z.shiftl (Zpos m) (Zneg d)) as n eqn:Hn.
    change (- Z.neg d) with (Z.pos d) in Hint.
    destruct n as [|n|n].
    + rewrite Z.shiftl_0_l in Hint. discriminate.
    + rewrite <- Zpos_iter_xO in Hint. injection Hint as Hm.
      cbn [binary_normalize]. subst m.
      now apply binary_round_aligned.
    + exfalso.
      assert (0 <= Z.shiftl (Zpos m) (Zneg d)) by (apply Z.shiftl_nonneg; lia).
      lia.
Qed.

(** The integer value of a [float], when it has one and it is not
    negative, is what [(int32_t)] reads and what [(float)] writes back. *)
Lemma float_int_value_nonneg C n :
  is_float C -> float_int_value C = Some n -> 0 <= n ->
  (C = S754_zero true \/ int64_to_float n = C) /\
  float_eq (int64_to_float n) C = true /\
  (n < 2 ^ 31 -> float_to_int32 C = Some n).
Proof.
  unfold is_float. intros HC Hv Hn.
  destruct C as [s|s| |s m e]; cbn in Hv; try discriminate.
  - injection Hv as <-. destruct s; cbn; auto.
  - destruct (Z.eqb_spec (Z.shiftl (Z.shiftl (Zpos m) e) (- e)) (Zpos m))
      as [Hi|]; [|discriminate].
    injection Hv as <-.
    assert (Hpos : 0 < Z.shiftl (Zpos m) e).
    { assert (0 <= Z.shiftl (Zpos m) e) by (apply Z.shiftl_nonneg; lia).
      destruct (Z.eq_dec (Z.shiftl (Zpos m) e) 0) as [E|]; [|lia].
      rewrite E, Z.shiftl_0_l in Hi. discriminate. }
    destruct s; cbn [cond_Zopp] in *; [lia|].
    cbn [valid_binary] in HC.
    rewrite (int64_to_float_exact m e HC Hi).
    split; [now right|]. split.
    + unfold float_eq, SFeqb. cbn [SFcompare].
      rewrite Z.compare_refl.
      now rewrite Pos.compare_cont_refl.
    + intros Hlt. unfold float_to_int32. cbn [cond_Zopp].
      destruct (Z.leb_spec (- 2 ^ 31) (Z.shiftl (Zpos m) e)); [|lia].
      destruct (Z.ltb_spec (Z.shiftl (Zpos m) e) (2 ^ 31)); [|lia].
      reflexivity.
Qed.

End FloatFacts.

(** ** The packed grain state: [pack_vals], [get_C], [get_nmax] *)

Module PackProps.
Import CInt CIntFacts Grain GrainProps FloatFacts.

Lemma land_high_low a c : 0 <= c < 2 ^ 32 -> Z.land (a * 2 ^ 32) c = 0.
Proof.
  intros Hc. apply Z.bits_inj'. intros n Hn.
  rewrite Z.land_spec, Z.bits_0.
  destruct (Z.lt_ge_cases n 32) as [Hlt|Hge].
  - rewrite Z.mul_pow2_bits_low by lia. reflexivity.
  - assert (Z.testbit c n = false) as ->; [|apply andb_false_r].
    destruct (Z.eq_dec c 0) as [->|Hnz]; [apply Z.bits_0|].
    apply Z.bits_above_log2; [lia|].
    assert (Z.log2 c < 32) by (apply Z.log2_lt_pow2; lia). lia.
Qed.

(** The word built by [pack_vals] when the low operand needs no sign
    extension. *)
Lemma pack_word nmax c :
  is_int32 nmax -> 0 <= c < 2 ^ 32 ->
  Z.lor (to_int64 (Z.shiftl nmax 32)) c = nmax * 2 ^ 32 + c.
Proof.
  unfold is_int32. intros Hn Hc.
  rewrite Z.shiftl_mul_pow2 by lia.
  rewrite to_int64_small by (unfold is_int64; lia).
  pose proof (Z.add_lor_land (nmax * 2 ^ 32) c) as H.
  rewrite land_high_low in H by lia. lia.
Qed.

Lemma pick_low nmax c :
  is_int32 nmax -> 0 <= c < 2 ^ 32 ->
  pick_bits 0 32 (nmax * 2 ^ 32 + c) = c.
Proof.
  unfold is_int32. intros Hn Hc.
  rewrite pick_bits_spec by lia. unfold to_uint64.
  change (2 ^ 0) with 1. rewrite Z.div_1_r.
  Z.div_mod_to_equations. lia.
Qed.

Lemma pick_high nmax c :
  is_int32 nmax -> 0 <= c < 2 ^ 32 ->
  to_int32 (pick_bits 32 32 (nmax * 2 ^ 32 + c)) = nmax.
Proof.
  unfold is_int32. intros Hn Hc.
  rewrite pick_bits_spec by lia. unfold to_uint64, to_int32.
  Z.div_mod_to_equations. lia.
Qed.

(** Packing a float whose integral part [c] is a non-negative [int32_t]. *)
Lemma pack_vals_nonneg C nmax c :
  is_int32 nmax -> float_to_int32 C = Some c -> 0 <= c < 2 ^ 31 ->
  pack_vals C nmax = Some (nmax * 2 ^ 32 + c) /\
  get_C (nmax * 2 ^ 32 + c) = int64_to_float c /\
  get_nmax (nmax * 2 ^ 32 + c) = nmax.
Proof.
  intros Hn Hc Hr. unfold pack_vals, get_C, get_nmax.
  rewrite Hc, pack_word, pick_low, pick_high by (assumption || lia).
  auto.
Qed.

(** The conversions and the packing on a few values: -1.5f converts to -1
    (truncation towards zero), 16777217 to 16777216.0f (ties to even), and
    the low field 0xFFFFFFFF reads back as 4294967296.0f. *)
Example float_to_int32_truncates :
  float_to_int32 (S754_finite true 12582912 (-23)) = Some (-1) /\
  float_to_int32 float_half = Some 0 /\
  float_to_int32 (S754_finite false 8388608 8) = None.
Proof. repeat split. Qed.

Example int64_to_float_rounds :
  int64_to_float 16777217 = S754_finite false 8388608 1 /\
  int64_to_float 16777219 = S754_finite false 8388610 1.
Proof. repeat split. Qed.

Example pack_vals_one_5 :
  pack_vals float_one 5 = Some 21474836481 /\
  get_C 21474836481 = float_one /\ get_nmax 21474836481 = 5 /\
  get_C (-1) = S754_finite false 8388608 9.
Proof. repeat split. Qed.

(** C10.  For every [int32_t] [nmax] and every [float] [C] whose value is
    a non-negative integer below [2^31], [pack_vals] returns a word from
    which [get_C] gives back a float equal to [C] (the C comparison [==])
    and [get_nmax] gives back [nmax]. *)
Theorem pack_unpack_nonneg_integer (C : float) (nmax n : Z)
    (HC : is_float C) (Hnmax : is_int32 nmax)
    (Hint : float_int_value C = Some n) (Hn : 0 <= n < 2 ^ 31) :
  exists w, pack_vals C nmax = Some w /\
            float_eq (get_C w) C = true /\
            get_nmax w = nmax.
Proof.
  destruct (float_int_value_nonneg C n HC Hint (proj1 Hn)) as (_ & Heq & Hto).
  destruct (pack_vals_nonneg C nmax n Hnmax (Hto (proj2 Hn)) Hn)
    as (Hp & Hc & Hm).
  exists (nmax * 2 ^ 32 + n). rewrite Hc. auto.
Qed.

Lemma pack_unpack_nonneg_integer_witness :
  exists w, pack_vals (S754_finite false 12582912 (-21)) (-3) = Some w /\
            float_eq (get_C w) (S754_finite false 12582912 (-21)) = true /\
            get_nmax w = -3.
Proof.
  apply (pack_unpack_nonneg_integer (S754_finite false 12582912 (-21)) (-3) 6);
    [reflexivity | unfold is_int32; lia | reflexivity | lia].
Defined.

(** C1, as the code has it.  For every [int32_t] [nmax] and every [float]
    [C] other than negative zero whose value is an integer in [0, 2^31),
    packing then unpacking gives back [C] and [nmax] exactly. *)
Theorem pack_unpack_exact (C : float) (nmax n : Z)
    (HC : is_float C) (Hnmax : is_int32 nmax)
    (Hint : float_int_value C = Some n) (Hn : 0 <= n < 2 ^ 31)
    (Hnz : C <> S754_zero true) :
  exists w, pack_vals C nmax = Some w /\ get_C w = C /\ get_nmax w = nmax.
Proof.
  destruct (float_int_value_nonneg C n HC Hint (proj1 Hn))
    as ([Hz|Hex] & _ & Hto); [contradiction|].
  destruct (pack_vals_nonneg C nmax n Hnmax (Hto (proj2 Hn)) Hn)
    as (Hp & Hc & Hm).
  exists (nmax * 2 ^ 32 + n). rewrite Hc. auto.
Qed.

Lemma pack_unpack_exact_witness :
  exists w, pack_vals float_one 2147483647 = Some w /\
            get_C w = float_one /\ get_nmax w = 2147483647.
Proof.
  apply (pack_unpack_exact float_one 2147483647 1);
    [reflexivity | unfold is_int32; lia | reflexivity | lia | discriminate].
Defined.

(** C1 fails as stated: 0.5f and 7 are representable, [pack_vals] is
    defined on them, and [get_C] of the packed word is 0.0f, not 0.5f. *)
Lemma pack_unpack_half_not_recovered :
  is_float float_half /\ is_int32 7 /\
  ~ (forall w, pack_vals float_half 7 = Some w ->
               get_C w = float_half /\ get_nmax w = 7).
Proof.
  split; [reflexivity|]. split; [unfold is_int32; lia|].
  intros H. destruct (H (7 * 2 ^ 32) eq_refl) as [Hc _].
  vm_compute in Hc. discriminate.
Qed.

(** C2 at C = -1.0f, nmax = 5: the conversion [(int32_t)C] is -1, its
    promotion to 64 bits sets all of the high 32 bits, and the word
    returned is -1; its high 32 bits read -1, not 5. *)
Theorem pack_vals_negative_C_overwrites_nmax :
  is_float float_minus_one /\ is_int32 5 /\
  float_to_int32 float_minus_one = Some (-1) /\
  pack_vals float_minus_one 5 = Some (-1) /\
  pick_bits 32 32 (-1) = 2 ^ 32 - 1 /\
  get_nmax (-1) = -1.
Proof.
  split; [reflexivity|]. split; [unfold is_int32; lia|].
  repeat split; vm_compute; reflexivity.
Qed.

(** C3, as the code has it.  For every 64-bit word [v], [get_C v] is the
    low 32 bits of [v], read as an unsigned integer and converted to the
    nearest [float]; [get_nmax v] is the high 32 bits of [v] read as a
    signed 32-bit integer. *)
Theorem get_C_get_nmax_fields (v : Z) :
  get_C v = int64_to_float (to_uint64 v mod 2 ^ 32) /\
  get_nmax v = to_int32 (to_uint64 v / 2 ^ 32).
Proof.
  unfold get_C, get_nmax.
  rewrite !pick_bits_spec by lia.
  change (2 ^ 0) with 1. rewrite Z.div_1_r.
  split; [reflexivity|]. f_equal.
  apply Z.mod_small. pose proof (to_uint64_range v).
  split; [apply Z.div_pos; lia|].
  apply Z.div_lt_upper_bound; lia.
Qed.

(** C3 fails as stated on the word 0x3F800000: its low 32 bits are the
    encoding of 1.0f, while [get_C] returns 1065353216.0f. *)
Lemma get_C_is_not_the_bit_pattern :
  float_of_bits (to_uint64 1065353216 mod 2 ^ 32) = float_one /\
  get_C 1065353216 = S754_finite false 16646144 6 /\
  get_C 1065353216 <> float_of_bits (to_uint64 1065353216 mod 2 ^ 32).
Proof.
  repeat split; try (vm_compute; reflexivity).
  vm_compute. discriminate.
Qed.

End PackProps.

(** ** The initial split and the re-splits *)

Module SchedProps.
Import Sched.

Lemma chunk_length_pos kappa C nmax n : 1 <= chunk_length kappa C nmax n.
Proof. unfold chunk_length. lia. Qed.

Lemma chunk_length_le kappa C nmax n :
  1 <= n -> chunk_length kappa C nmax n <= n.
Proof. unfold chunk_length. lia. Qed.

(** The example of the specification: 17 iterations on 4 threads. *)
Example static_17_on_4 :
  map (fun s => end_ s - start s) (submit 4 1000 10 1000 0 (mkTask 17 STATIC))
  = [5; 4; 4; 4].
Proof. reflexivity. Qed.

(** The example of the specification: κ = 1000 and C = 10. *)
Example dynamic_chunk_100 : chunk_length 1000 10 1000 250 = 100.
Proof. reflexivity. Qed.

(** The DYNAMIC plans of 250 and of 1000 iterations for the chunk length
    100: three subtasks of 84, 83 and 83 iterations, and ten of 100. *)
Example dynamic_250_in_chunks_of_100 :
  plan 4 1000 10 1000 (mkTask 250 DYNAMIC) = mkInfo 83 1 3 DYNAMIC /\
  map (fun s => (start s, end_ s))
      (submit 4 1000 10 1000 0 (mkTask 250 DYNAMIC))
  = [(0, 84); (84, 167); (167, 250)] /\
  plan 4 1000 10 1000 (mkTask 1000 DYNAMIC) = mkInfo 100 0 10 DYNAMIC.
Proof. repeat split. Qed.

(** The STATIC plan is the division of the iteration count by the number
    of threads. *)
Lemma plan_static num_threads kappa C nmax n :
  1 <= num_threads -> 0 <= n ->
  let info := plan num_threads kappa C nmax (mkTask n STATIC) in
  nsubtasks info * iter_pr_subtask info + remainder info = n /\
  0 <= remainder info < nsubtasks info /\
  0 <= iter_pr_subtask info <= n.
Proof.
  intros Ht Hn. cbn [plan task_sched task_iterations nsubtasks iter_pr_subtask
                      remainder].
  pose proof (Z.div_mod n num_threads ltac:(lia)).
  pose proof (Z.mod_pos_bound n num_threads ltac:(lia)).
  assert (0 <= n / num_threads) by (apply Z.div_pos; lia).
  assert (n / num_threads <= n) by (apply Z.div_le_upper_bound; nia).
  lia.
Qed.

(** The number of chunks of length [q] that cover [n] iterations. *)
Lemma chunk_count n q :
  0 < n -> 1 <= q ->
  1 <= (n + q - 1) / q <= n /\ n <= q * ((n + q - 1) / q).
Proof.
  intros Hn Hq.
  pose proof (Z.div_mod (n + q - 1) q ltac:(lia)) as Hd.
  pose proof (Z.mod_pos_bound (n + q - 1) q ltac:(lia)) as Hm.
  split; [split|].
  - apply Z.div_le_lower_bound; lia.
  - apply Z.div_le_upper_bound; [lia|]. nia.
  - lia.
Qed.

(** The DYNAMIC plan is the division of the iteration count by the number
    of chunks; iterations-per-subtask is at least 1 and at most the chunk
    length. *)
Lemma plan_dynamic num_threads kappa C nmax n :
  0 < n ->
  let info := plan num_threads kappa C nmax (mkTask n DYNAMIC) in
  nsubtasks info * iter_pr_subtask info + remainder info = n /\
  0 <= remainder info < nsubtasks info /\
  1 <= iter_pr_subtask info <= chunk_length kappa C nmax n /\
  1 <= nsubtasks info <= n.
Proof.
  intros Hn. cbn [plan task_sched task_iterations nsubtasks iter_pr_subtask
                   remainder].
  pose proof (chunk_length_pos kappa C nmax n) as Hq.
  destruct (chunk_count n (chunk_length kappa C nmax n) Hn Hq) as [Hns Hcover].
  set (ns := (n + chunk_length kappa C nmax n - 1)
             / chunk_length kappa C nmax n) in *.
  pose proof (Z.div_mod n ns ltac:(lia)).
  pose proof (Z.mod_pos_bound n ns ltac:(lia)).
  assert (1 <= n / ns) by (apply Z.div_le_lower_bound; lia).
  assert (n / ns <= chunk_length kappa C nmax n)
    by (apply Z.div_le_upper_bound; lia).
  lia.
Qed.

(** Both plans keep the invariant the specification states. *)
Lemma plan_keeps_info_invariant num_threads kappa C nmax n mode :
  1 <= num_threads -> 0 < n ->
  info_invariant (plan num_threads kappa C nmax (mkTask n mode)) n.
Proof.
  intros Ht Hn. unfold info_invariant. destruct mode.
  - destruct (plan_dynamic num_threads kappa C nmax n Hn) as (Hsum & Hr & _).
    now split.
  - destruct (plan_static num_threads kappa C nmax n) as (Hsum & Hr & _);
      [lia..|].
    now split.
Qed.

(** No subtask of a DYNAMIC plan is longer than the chunk length. *)
Lemma dynamic_subtask_length_le_chunk num_threads kappa C nmax n i :
  0 < n -> 0 <= i ->
  subtask_length (plan num_threads kappa C nmax (mkTask n DYNAMIC)) i
  <= chunk_length kappa C nmax n.
Proof.
  intros Hn Hi.
  pose proof (chunk_length_pos kappa C nmax n) as Hq.
  destruct (chunk_count n (chunk_length kappa C nmax n) Hn Hq) as [Hns Hcover].
  destruct (plan_dynamic num_threads kappa C nmax n Hn)
    as (Hsum & Hr & Hiter & _).
  unfold subtask_length.
  destruct (Z.ltb_spec i (remainder
              (plan num_threads kappa C nmax (mkTask n DYNAMIC)))) as [Hlt|];
    [|lia].
  cbn [plan task_sched task_iterations nsubtasks iter_pr_subtask remainder] in *.
  set (q := chunk_length kappa C nmax n) in *.
  set (ns := (n + q - 1) / q) in *.
  destruct (Z.eq_dec (n / ns) q) as [E|NE]; [|lia].
  rewrite E in Hsum. nia.
Qed.

(** C6.  For every submission with a positive iteration count (an [int],
    on a pool of at least one thread), the computed [scheduler_info]
    satisfies [nsubtasks * iter_pr_subtask + remainder = iterations] with
    [0 <= remainder < nsubtasks], and its three fields are [int]s. *)
Theorem plan_invariant (num_threads kappa C nmax : Z) (task : scheduler_task)
    (Hthreads : 1 <= num_threads < 2 ^ 31)
    (Hiter : 0 < task_iterations task < 2 ^ 31) :
  let info := plan num_threads kappa C nmax task in
  nsubtasks info * iter_pr_subtask info + remainder info
    = task_iterations task /\
  0 <= remainder info < nsubtasks info /\
  info_fits info.
Proof.
  destruct task as [n mode]. cbn [task_iterations task_sched] in *.
  unfold info_fits, CInt.is_int32.
  destruct mode.
  - destruct (plan_dynamic num_threads kappa C nmax n) as (Hsum & Hr & Hq & Hn);
      [lia|].
    split; [exact Hsum|]. split; [exact Hr|].
    assert (iter_pr_subtask (plan num_threads kappa C nmax (mkTask n DYNAMIC))
            <= n) by nia.
    lia.
  - destruct (plan_static num_threads kappa C nmax n) as (Hsum & Hr & Hq);
      [lia..|].
    split; [exact Hsum|]. split; [exact Hr|].
    cbn [plan task_sched nsubtasks] in *. lia.
Qed.

Lemma plan_invariant_witness :
  let info := plan 4 1000 10 1000 (mkTask 250 DYNAMIC) in
  nsubtasks info * iter_pr_subtask info + remainder info = 250 /\
  0 <= remainder info < nsubtasks info /\
  info_fits info.
Proof.
  apply (plan_invariant 4 1000 10 1000 (mkTask 250 DYNAMIC)); simpl; lia.
Defined.

Lemma total_length_app l1 l2 :
  total_length (l1 ++ l2) = total_length l1 + total_length l2.
Proof.
  unfold total_length. induction l1 as [|s l1 IH]; cbn [foldr app]; lia.
Qed.

Lemma total_length_perm l1 l2 : l1 ≡ₚ l2 -> total_length l1 = total_length l2.
Proof.
  unfold total_length.
  induction 1 as [|s l1 l2 _ IH|s t l|l1 l2 l3 _ IH1 _ IH2]; cbn [foldr]; lia.
Qed.

Lemma chain_total l : forall from upto,
  chain from l upto -> total_length l = upto - from.
Proof.
  unfold total_length.
  induction l as [|s l IH]; intros from upto; cbn [chain foldr].
  - lia.
  - intros (Hs & Hle & Hc). rewrite (IH _ _ Hc). lia.
Qed.

Lemma spawn_from_chain info tid ids : forall from,
  0 <= iter_pr_subtask info ->
  chain from (spawn_from info tid from ids) (from + lengths_sum info ids).
Proof.
  intros from Hq. revert from.
  induction ids as [|i ids IH]; intros from; cbn [spawn_from chain lengths_sum foldr].
  - lia.
  - cbn [start end_]. split; [reflexivity|]. split.
    + unfold subtask_length. destruct (i <? remainder info); lia.
    + specialize (IH (from + subtask_length info i)).
      unfold lengths_sum in IH.
      now replace (from + (subtask_length info i
                           + foldr (fun i acc => subtask_length info i + acc) 0 ids))
        with (from + subtask_length info i
              + foldr (fun i acc => subtask_length info i + acc) 0 ids) by lia.
Qed.

Lemma lengths_sum_app info l1 l2 :
  lengths_sum info (l1 ++ l2) = lengths_sum info l1 + lengths_sum info l2.
Proof.
  unfold lengths_sum. induction l1 as [|i l1 IH]; cbn [foldr app]; lia.
Qed.

(** The first [k] subtasks receive [k] times the iterations per subtask and
    as many extra units as there are indices below the remainder. *)
Lemma lengths_sum_seqZ info (k : nat) :
  0 <= remainder info ->
  lengths_sum info (seqZ 0 (Z.of_nat k))
  = Z.of_nat k * iter_pr_subtask info + Z.min (remainder info) (Z.of_nat k).
Proof.
  intros Hr. induction k as [|k IH].
  - rewrite seqZ_nil by lia. unfold lengths_sum. cbn [foldr]. lia.
  - rewrite seqZ_S, lengths_sum_app, IH.
    unfold lengths_sum at 1. cbn [foldr]. unfold subtask_length.
    rewrite Z.add_0_l.
    destruct (Z.ltb_spec (Z.of_nat k) (remainder info)); lia.
Qed.

Lemma spawn_chain info tid :
  0 <= iter_pr_subtask info -> 0 <= nsubtasks info ->
  0 <= remainder info <= nsubtasks info ->
  chain 0 (spawn info tid)
    (nsubtasks info * iter_pr_subtask info + remainder info).
Proof.
  intros Hq Hn Hr. unfold spawn.
  pose proof (spawn_from_chain info tid (seqZ 0 (nsubtasks info)) 0 Hq) as H.
  rewrite <- (Z2Nat.id (nsubtasks info)) in H at 2 by lia.
  rewrite lengths_sum_seqZ in H by lia.
  rewrite Z2Nat.id in H by lia.
  now replace (0 + (nsubtasks info * iter_pr_subtask info
                    + Z.min (remainder info) (nsubtasks info)))
    with (nsubtasks info * iter_pr_subtask info + remainder info) in H by lia.
Qed.

Lemma split_inv target mid tid new_id s a b :
  split target mid tid new_id s = Some (a, b) ->
  start a = start s /\ end_ a = mid /\ start b = mid /\ end_ b = end_ s /\
  start s < mid < end_ s.
Proof.
  unfold split. intros H.
  destruct (0 <? chunkable s); cbn [andb] in H; [|discriminate].
  destruct (target <? end_ s - start s); cbn [andb] in H; [|discriminate].
  destruct (Z.ltb_spec (start s) mid); cbn [andb] in H; [|discriminate].
  destruct (Z.ltb_spec mid (end_ s)); [|discriminate].
  injection H as <- <-. cbn. lia.
Qed.

Lemma chain_split target mid tid new_id s a b m1 m2 : forall from upto,
  split target mid tid new_id s = Some (a, b) ->
  chain from (m1 ++ s :: m2) upto ->
  chain from (m1 ++ a :: b :: m2) upto.
Proof.
  intros from upto Hs. apply split_inv in Hs as (Ha & Ha' & Hb & Hb' & Hm).
  revert from. induction m1 as [|x m1 IH]; intros from; cbn [app chain].
  - intros (H1 & H2 & H3). rewrite Ha, Ha', Hb, Hb'. repeat split; try lia.
    exact H3.
  - intros (H1 & H2 & H3). repeat split; auto.
Qed.

Lemma resplit_tiles target l l' n :
  resplit target l l' -> tiles l n -> tiles l' n.
Proof.
  intros Hstep (k & Hperm & Hchain).
  destruct Hstep as [l1 s l2 mid tid new_id a b Hsplit].
  assert (Hin : s ∈ k).
  { rewrite <- Hperm. apply elem_of_app. right. apply list_elem_of_here. }
  apply list_elem_of_split in Hin as (m1 & m2 & ->).
  exists (m1 ++ a :: b :: m2). split.
  - apply Permutation_app_inv in Hperm.
    rewrite <- !Permutation_middle. now rewrite Hperm.
  - eapply chain_split; eauto.
Qed.

Lemma tiles_total l n : tiles l n -> total_length l = n.
Proof.
  intros (k & Hperm & Hchain).
  rewrite (total_length_perm _ _ Hperm), (chain_total _ _ _ Hchain). lia.
Qed.

Lemma submit_tiles num_threads kappa C nmax tid task :
  1 <= num_threads -> 0 <= task_iterations task ->
  tiles (submit num_threads kappa C nmax tid task) (task_iterations task).
Proof.
  intros Ht Hn. unfold submit.
  destruct (Z.eqb_spec (task_iterations task) 0) as [E|E].
  { exists []. rewrite E. now split. }
  exists (spawn (plan num_threads kappa C nmax task) tid).
  split; [reflexivity|].
  destruct task as [n mode]. cbn [task_iterations task_sched] in *.
  destruct mode.
  - destruct (plan_dynamic num_threads kappa C nmax n ltac:(lia))
      as (Hsum & Hr0 & Hq & Hn0).
    rewrite <- Hsum at 2. apply spawn_chain; lia.
  - destruct (plan_static num_threads kappa C nmax n Ht Hn) as (Hsum & Hr0 & Hq).
    rewrite <- Hsum at 2. apply spawn_chain; lia.
Qed.

(** The ranges of a chain lie between its ends. *)
Lemma chain_within l : forall from upto,
  chain from l upto ->
  from <= upto /\
  Forall (fun s => from <= start s /\ start s <= end_ s /\ end_ s <= upto) l.
Proof.
  induction l as [|s l IH]; intros from upto; cbn [chain].
  - intros ->. split; [lia|constructor].
  - intros (Hs & Hle & Hc). destruct (IH _ _ Hc) as [Hb Hall].
    split; [lia|]. constructor; [lia|].
    eapply Forall_impl; [exact Hall|]. cbn. intros x Hx. lia.
Qed.

Lemma tiles_fit l n : n < 2 ^ 31 -> tiles l n -> Forall subtask_fits l.
Proof.
  intros Hn (k & Hperm & Hchain). rewrite Hperm.
  destruct (chain_within k 0 n Hchain) as [_ Hall].
  eapply Forall_impl; [exact Hall|]. cbn.
  intros s Hs. unfold subtask_fits, CInt.is_int32. lia.
Qed.

(** C5.  For every submission (an iteration count that is an [int] and
    not negative, on a pool of at least one thread), the subtasks spawned,
    after any number of re-splits by thieves, have lengths summing to the
    iteration count, their ranges, put in order, exactly tile
    [[0, iterations)], and each has [start <= end] within the [int]s. *)
Theorem subtasks_tile_iterations
    (num_threads kappa C nmax tid target : Z) (task : scheduler_task)
    (l : list subtask)
    (Hthreads : 1 <= num_threads) (Hiter : 0 <= task_iterations task < 2 ^ 31)
    (Hrun : rtc (resplit target) (submit num_threads kappa C nmax tid task) l) :
  total_length l = task_iterations task /\
  tiles l (task_iterations task) /\
  Forall subtask_fits l.
Proof.
  assert (Ht : tiles l (task_iterations task)).
  { revert l Hrun. apply rtc_ind_r.
    - apply submit_tiles; lia.
    - intros l2 l3 _ Hstep IH. exact (resplit_tiles _ _ _ _ Hstep IH). }
  split; [now apply tiles_total|]. split; [exact Ht|].
  apply (tiles_fit l (task_iterations task)); [lia|exact Ht].
Qed.

Lemma subtasks_tile_iterations_witness :
  let l := [mkSubtask 0 42 1 0 0; mkSubtask 42 84 1 3 7;
            mkSubtask 84 167 1 0 1; mkSubtask 167 250 1 0 2] in
  total_length l = 250 /\ tiles l 250 /\ Forall subtask_fits l.
Proof.
  intros l.
  apply (subtasks_tile_iterations 4 1000 10 1000 0 10 (mkTask 250 DYNAMIC) l).
  - lia.
  - simpl. lia.
  - apply rtc_once.
    exact (resplit_at 10 [] (mkSubtask 0 84 1 0 0)
             [mkSubtask 84 167 1 0 1; mkSubtask 167 250 1 0 2]
             42 3 7 _ _ eq_refl).
Defined.

End SchedProps.

(** ** The deque hands out what was pushed *)

Module DequeProps.
Import Sched Deque.

Lemma slot_lt sz i : 0 < sz -> (slot sz i < Z.to_nat sz)%nat.
Proof.
  intros Hs. unfold slot.
  pose proof (Z.mod_pos_bound i sz Hs). lia.
Qed.

(** Two indices less than a buffer size apart live in different slots. *)
Lemma slot_ne sz i j : 0 < sz -> 0 < j - i < sz -> slot sz i <> slot sz j.
Proof.
  intros Hs Hd. unfold slot. intros E.
  pose proof (Z.mod_pos_bound i sz Hs). pose proof (Z.mod_pos_bound j sz Hs).
  assert (E' : i mod sz = j mod sz) by lia.
  pose proof (Z.div_mod i sz ltac:(lia)). pose proof (Z.div_mod j sz ltac:(lia)).
  assert (Hq : j - i = sz * (j / sz - i / sz)) by lia.
  destruct (Z.le_gt_cases (j / sz - i / sz) 0) as [Hle|Hgt]; nia.
Qed.

Lemma omap_seqZ {A} (f : Z -> option A) (l : list A) : forall m,
  (forall (k : nat) x, l !! k = Some x -> f (m + Z.of_nat k) = Some x) ->
  omap f (seqZ m (Z.of_nat (length l))) = l.
Proof.
  induction l as [|x l IH]; intros m H.
  - now rewrite seqZ_nil by (cbn; lia).
  - rewrite seqZ_cons by (cbn [length]; lia). cbn [omap list_omap].
    replace (f m) with (Some x)
      by (symmetry; rewrite <- (Z.add_0_r m); exact (H 0%nat x eq_refl)).
    f_equal.
    replace (Z.pred (Z.of_nat (length (x :: l)))) with (Z.of_nat (length l))
      by (cbn [length]; lia).
    apply IH. intros k y Hk.
    replace (Z.succ m + Z.of_nat k) with (m + Z.of_nat (S k)) by lia.
    now apply H.
Qed.

Lemma holds_pending d l : holds d l -> pending d = l.
Proof.
  intros (_ & _ & Hlive & _ & Hget). unfold pending.
  rewrite Hlive. now apply omap_seqZ.
Qed.

Lemma holds_new capacity : 0 < capacity -> holds (new_deque capacity) [].
Proof.
  intros Hc. unfold holds, live. cbn [new_deque size buffer top bottom length].
  rewrite length_replicate. repeat split; try lia.
  intros k x Hk. discriminate.
Qed.

Lemma length_copy (f : Z -> nat) (g : Z -> option subtask) base ids :
  length (foldr (fun i b => <[f i := g i]> b) base ids) = length base.
Proof.
  induction ids as [|i ids IH]; cbn [foldr]; [reflexivity|].
  now rewrite length_insert.
Qed.

(** After the copy loop of [grow], every copied index is found in its new
    slot, provided the indices copied occupy different slots. *)
Lemma lookup_copy (f : Z -> nat) (g : Z -> option subtask) base ids i :
  i ∈ ids ->
  (forall a, a ∈ ids -> (f a < length base)%nat) ->
  (forall a b, a ∈ ids -> b ∈ ids -> f a = f b -> a = b) ->
  foldr (fun i b => <[f i := g i]> b) base ids !! f i = Some (g i).
Proof.
  induction ids as [|a ids IH]; intros Hi Hlt Hinj.
  { now apply elem_of_nil in Hi. }
  cbn [foldr].
  destruct (decide (a = i)) as [->|Hne].
  - apply list_lookup_insert_eq. rewrite length_copy. apply Hlt.
    apply list_elem_of_here.
  - assert (Hi' : i ∈ ids).
    { apply elem_of_cons in Hi as [Hi|Hi]; [congruence|exact Hi]. }
    rewrite list_lookup_insert_ne.
    + apply IH; [exact Hi'| |].
      * intros b Hb. apply Hlt. now apply list_elem_of_further.
      * intros b c Hb Hc. apply Hinj; now apply list_elem_of_further.
    + intros E. apply Hne. apply Hinj; [apply list_elem_of_here| |exact E].
      now apply list_elem_of_further.
Qed.

Lemma holds_grow d l :
  holds d l -> holds (grow d) l /\ live (grow d) < size (grow d).
Proof.
  intros (Hs & Hlen & Hlive & Hle & Hget).
  assert (Hgrow : forall i, top d <= i < top d + live d ->
                            get (grow d) i = get d i).
  { intros i Hi. unfold get at 1. cbn [grow size buffer].
    rewrite (lookup_copy (slot (2 * size d)) (get d)).
    - reflexivity.
    - apply elem_of_seqZ. lia.
    - intros a _. rewrite length_replicate. apply slot_lt. lia.
    - intros a b Ha Hb E. apply elem_of_seqZ in Ha, Hb.
      destruct (Z.lt_trichotomy a b) as [Hab|[Hab|Hab]]; [|exact Hab|].
      + exfalso. apply (slot_ne (2 * size d) a b); [lia|lia|exact E].
      + exfalso. apply (slot_ne (2 * size d) b a); [lia|lia|now symmetry]. }
  split; [|unfold live in *; cbn [grow size top bottom]; lia].
  unfold holds, live in *. cbn [grow size top bottom] in *.
  repeat split; try lia.
  - cbn [grow buffer]. now rewrite length_copy, length_replicate.
  - intros k x Hk. rewrite Hgrow; [now apply Hget|].
    apply lookup_lt_Some in Hk. unfold live. lia.
Qed.

(** Writing index [bottom] leaves the live indices alone. *)
Lemma holds_write d l x :
  holds d l -> live d < size d ->
  holds {| size := size d;
           buffer := <[slot (size d) (bottom d) := Some x]> (buffer d);
           top := top d; bottom := bottom d + 1; dead := dead d |}
        (l ++ [x]).
Proof.
  intros (Hs & Hlen & Hlive & Hle & Hget) Hroom.
  unfold holds, live, get in *. cbn [size buffer top bottom] in *.
  rewrite length_insert, length_app. cbn [length].
  repeat split; try lia.
  intros k y Hk.
  destruct (decide (k = length l)) as [->|Hne].
  - rewrite list_lookup_middle in Hk by reflexivity. injection Hk as <-.
    replace (top d + Z.of_nat (length l)) with (bottom d) by lia.
    rewrite list_lookup_insert_eq; [reflexivity|].
    rewrite Hlen. now apply slot_lt.
  - assert (Hlt : (k < length l)%nat).
    { apply lookup_lt_Some in Hk. rewrite length_app in Hk. cbn in Hk. lia. }
    rewrite lookup_app_l in Hk by exact Hlt.
    rewrite list_lookup_insert_ne; [now apply Hget|].
    intros E. symmetry in E. revert E. apply slot_ne; lia.
Qed.

Lemma holds_push d l x :
  holds d l -> dead d = false ->
  exists d', push_bottom x d = Some d' /\ holds d' (l ++ [x]).
Proof.
  intros H Hd. unfold push_bottom. rewrite Hd.
  destruct (Z.leb_spec (size d) (live d)) as [Hfull|Hroom].
  - destruct (holds_grow d l H) as [Hg Hlt].
    eexists. split; [reflexivity|]. now apply holds_write.
  - eexists. split; [reflexivity|]. now apply holds_write.
Qed.

Lemma push_dead d x : dead d = true -> push_bottom x d = None.
Proof. intros H. unfold push_bottom. now rewrite H. Qed.

Lemma holds_pop_empty d : holds d [] -> pop_bottom d = (None, d).
Proof.
  intros (_ & _ & Hlive & _). unfold pop_bottom, live in *. cbn in Hlive.
  destruct (Z.leb_spec (bottom d) (top d)); [reflexivity|lia].
Qed.

(** [pop_bottom] hands out the most recently pushed subtask. *)
Lemma holds_pop d l x :
  holds d (l ++ [x]) ->
  exists d', pop_bottom d = (Some x, d') /\ holds d' l.
Proof.
  intros (Hs & Hlen & Hlive & Hle & Hget).
  unfold pop_bottom, live in *. rewrite length_app in Hlive. cbn [length] in Hlive.
  destruct (Z.leb_spec (bottom d) (top d)); [lia|].
  eexists. split.
  - f_equal. replace (bottom d - 1) with (top d + Z.of_nat (length l)) by lia.
    apply Hget. now rewrite list_lookup_middle.
  - unfold holds, live, get in *. cbn [size buffer top bottom].
    repeat split; try lia.
    intros k y Hk. apply Hget. rewrite lookup_app_l; [exact Hk|].
    now apply lookup_lt_Some in Hk.
Qed.

Lemma holds_steal_empty d lost : holds d [] -> steal lost d = (None, d).
Proof.
  intros (_ & _ & Hlive & _). unfold steal, live in *. cbn in Hlive.
  destruct (Z.leb_spec (bottom d) (top d)); [reflexivity|lia].
Qed.

(** [steal], when it does not lose the race, hands out the oldest subtask. *)
Lemma holds_steal d l x :
  holds d (x :: l) ->
  steal true d = (None, d) /\
  exists d', steal false d = (Some x, d') /\ holds d' l.
Proof.
  intros (Hs & Hlen & Hlive & Hle & Hget).
  unfold steal, live in *. cbn [length] in Hlive.
  destruct (Z.leb_spec (bottom d) (top d)); [lia|].
  split; [reflexivity|]. eexists. split.
  - f_equal. rewrite <- (Z.add_0_r (top d)). exact (Hget 0%nat x eq_refl).
  - unfold holds, live, get in *. cbn [size buffer top bottom].
    repeat split; try lia.
    intros k y Hk.
    replace (top d + 1 + Z.of_nat k) with (top d + Z.of_nat (S k)) by lia.
    now apply Hget.
Qed.

Lemma holds_mark_dead d l : holds d l -> holds (mark_dead d) l.
Proof. intros H. exact H. Qed.

(** Every operation keeps the deque well formed and the account of the
    subtasks balanced. *)
Lemma step_balanced o d h l :
  holds d l -> pushed h ≡ₚ returned h ++ l ->
  exists l', holds (step o (d, h)).1 l' /\
             pushed (step o (d, h)).2 ≡ₚ returned (step o (d, h)).2 ++ l'.
Proof.
  intros Hd Hb. destruct o as [x| |lost|]; cbn [step].
  - destruct (dead d) eqn:Hdead.
    + rewrite push_dead by exact Hdead. now exists l.
    + destruct (holds_push d l x Hd Hdead) as (d' & -> & Hd').
      exists (l ++ [x]). cbn [fst snd pushed returned]. split; [exact Hd'|].
      now rewrite Hb, app_assoc.
  - destruct l as [|x l _] using rev_ind.
    + rewrite holds_pop_empty by exact Hd. now exists [].
    + destruct (holds_pop d l x Hd) as (d' & -> & Hd').
      exists l. cbn [fst snd record_return pushed returned]. split; [exact Hd'|].
      rewrite Hb. rewrite <- !app_assoc. apply Permutation_app_head.
      apply Permutation_app_comm.
  - destruct l as [|x l].
    + rewrite holds_steal_empty by exact Hd. now exists [].
    + destruct (holds_steal d l x Hd) as (Hlost & d' & Hwon & Hd').
      destruct lost.
      * rewrite Hlost. now exists (x :: l).
      * rewrite Hwon. exists l.
        cbn [fst snd record_return pushed returned]. split; [exact Hd'|].
        now rewrite Hb, <- app_assoc.
  - exists l. cbn [fst snd]. split; [now apply holds_mark_dead|exact Hb].
Qed.

Lemma run_balanced ops : forall d h l,
  holds d l -> pushed h ≡ₚ returned h ++ l ->
  exists l', holds (run ops (d, h)).1 l' /\
             pushed (run ops (d, h)).2 ≡ₚ returned (run ops (d, h)).2 ++ l'.
Proof.
  unfold run. induction ops as [|o ops IH]; intros d h l Hd Hb; cbn [foldl].
  - now exists l.
  - destruct (step_balanced o d h l Hd Hb) as (l1 & Hd1 & Hb1).
    destruct (step o (d, h)) as [d1 h1]. now apply (IH d1 h1 l1).
Qed.

(** C7.  On a deque created with a positive capacity, after any sequence
    of [push_bottom], [pop_bottom], [steal] (won or lost) and [mark_dead]
    operations, the subtasks whose push was accepted are, counted with
    multiplicity, exactly the subtasks handed out by [pop_bottom] or [steal]
    together with the subtasks still pending; the pending ones are the
    [bottom - top] live elements; and if the pushed subtasks are pairwise
    distinct, none is handed out twice or both handed out and pending. *)
Theorem deque_hands_out_each_subtask_once (capacity : Z) (ops : list op)
    (Hcap : 0 < capacity) :
  let st := run ops (new_deque capacity, mkHistory [] []) in
  pushed st.2 ≡ₚ returned st.2 ++ pending st.1 /\
  Z.of_nat (length (pending st.1)) = live st.1 /\
  (live st.1 = 0 -> pushed st.2 ≡ₚ returned st.2) /\
  (NoDup (pushed st.2) -> NoDup (returned st.2 ++ pending st.1)).
Proof.
  intros st.
  destruct (run_balanced ops (new_deque capacity) (mkHistory [] []) []
              (holds_new capacity Hcap) (reflexivity _)) as (l & Hd & Hb).
  fold st in Hd, Hb.
  rewrite (holds_pending _ _ Hd).
  destruct Hd as (_ & _ & Hlive & _).
  repeat split.
  - exact Hb.
  - now rewrite Hlive.
  - intros Hz. assert (l = []) as -> by (apply length_zero_iff_nil; lia).
    now rewrite app_nil_r in Hb.
  - intros Hnd. now rewrite <- Hb.
Qed.

Lemma deque_hands_out_each_subtask_once_witness :
  let a := mkSubtask 0 4 1 0 0 in
  let b := mkSubtask 4 8 1 0 1 in
  let c := mkSubtask 8 12 1 0 2 in
  let ops := [PushBottom a; PushBottom b; PushBottom c; Steal true;
              Steal false; PopBottom; MarkDead; PushBottom a] in
  let st := run ops (new_deque 1, mkHistory [] []) in
  pushed st.2 ≡ₚ returned st.2 ++ pending st.1 /\
  Z.of_nat (length (pending st.1)) = live st.1 /\
  (live st.1 = 0 -> pushed st.2 ≡ₚ returned st.2) /\
  (NoDup (pushed st.2) -> NoDup (returned st.2 ++ pending st.1)).
Proof.
  intros a b c ops. apply (deque_hands_out_each_subtask_once 1 ops). lia.
Defined.

(** The same run, evaluated: the buffer grows from 1 to 4 slots, the thief
    gets the oldest subtask, the owner the newest, one stays pending, and
    the push after [mark_dead] is refused. *)
Example deque_run_evaluated :
  let a := mkSubtask 0 4 1 0 0 in
  let b := mkSubtask 4 8 1 0 1 in
  let c := mkSubtask 8 12 1 0 2 in
  let ops := [PushBottom a; PushBottom b; PushBottom c; Steal true;
              Steal false; PopBottom; MarkDead; PushBottom a] in
  let st := run ops (new_deque 1, mkHistory [] []) in
  size st.1 = 4 /\ pushed st.2 = [a; b; c] /\ returned st.2 = [a; c] /\
  pending st.1 = [b] /\ dead st.1 = true.
Proof. vm_compute. repeat split. Qed.

End DequeProps.

(** ** The period of the generator *)

Module RngPeriod.
Import CInt Rng CIntFacts.

Lemma fast_rand_iter_seed k st :
  g_seed (fast_rand_iter k st) = N.iter k next (g_seed st).
Proof.
  unfold fast_rand_iter.
  apply (N.iter_swap_gen _ _ g_seed (fun s => snd (fast_rand s)) next).
  reflexivity.
Qed.

(** [fast_rand_iter] is the state that [fast_rand_n] ends in. *)
Lemma fast_rand_n_iter n : forall st,
  snd (fast_rand_n n st) = fast_rand_iter (N.of_nat n) st.
Proof.
  unfold fast_rand_iter.
  induction n as [|n IH]; intros st; [reflexivity|].
  rewrite Nat2N.inj_succ, N.iter_succ_r. cbn [fast_rand_n].
  destruct (fast_rand st) as [r st1] eqn:E. cbn [snd].
  rewrite <- IH. now destruct (fast_rand_n n st1).
Qed.

Lemma next_range g : 0 <= next g < 2 ^ 32.
Proof. unfold next. apply to_uint32_range. Qed.

Lemma iter_next_range k g :
  0 <= g < 2 ^ 32 -> 0 <= N.iter k next g < 2 ^ 32.
Proof.
  intros Hg. apply N.iter_invariant; [|exact Hg].
  intros x _. apply next_range.
Qed.

(** Composing [g -> A*g+C] with itself, modulo [2^32]. *)
Lemma affine_square A C g :
  to_uint32 (A * to_uint32 (A * g + C) + C)
  = to_uint32 (to_uint32 (A * A) * g + to_uint32 (A * C + C)).
Proof.
  unfold to_uint32.
  rewrite <- (Z.add_mod_idemp_l (A * _)), Z.mul_mod_idemp_r, Z.add_mod_idemp_l
    by lia.
  rewrite Z.add_mod_idemp_r by lia.
  rewrite <- (Z.add_mod_idemp_l (_ * g)), Z.mul_mod_idemp_l, Z.add_mod_idemp_l
    by lia.
  f_equal. ring.
Qed.

Lemma iter_next_pow2 j : forall g,
  N.iter (2 ^ N.of_nat j) next g
  = to_uint32 (fst (seed_update_pow2 j) * g + snd (seed_update_pow2 j)).
Proof.
  induction j as [|j IH]; intros g; [reflexivity|].
  rewrite Nat2N.inj_succ, N.pow_succ_r'.
  replace (2 * 2 ^ N.of_nat j)%N with (2 ^ N.of_nat j + 2 ^ N.of_nat j)%N by lia.
  rewrite N.iter_add, !IH. cbn [seed_update_pow2].
  destruct (seed_update_pow2 j) as [A C]. cbn [fst snd].
  apply affine_square.
Qed.

(** After [2^31] calls the seed has moved by [2^31]; after [2^32] calls it
    is back. *)
Lemma iter_next_half g :
  0 <= g < 2 ^ 32 -> N.iter (2 ^ 31) next g = (g + 2 ^ 31) mod 2 ^ 32.
Proof.
  intros Hg. change (2 ^ 31)%N with (2 ^ N.of_nat 31)%N.
  rewrite iter_next_pow2.
  replace (seed_update_pow2 31) with (1, 2 ^ 31) by (vm_compute; reflexivity).
  cbn [fst snd]. unfold to_uint32. f_equal. lia.
Qed.

Lemma iter_next_full g : 0 <= g < 2 ^ 32 -> N.iter (2 ^ 32) next g = g.
Proof.
  intros Hg. change (2 ^ 32)%N with (2 ^ N.of_nat 32)%N.
  rewrite iter_next_pow2.
  replace (seed_update_pow2 32) with (1, 0) by (vm_compute; reflexivity).
  cbn [fst snd]. unfold to_uint32. rewrite Z.mod_small; lia.
Qed.

(** A number of calls that brings the seed back does so again and again. *)
Lemma iter_next_multiple k g :
  N.iter k next g = g -> forall u, N.iter (u * k) next g = g.
Proof.
  intros Hk u. induction u as [|u IH] using N.peano_ind; [reflexivity|].
  rewrite N.mul_succ_l, N.add_comm, N.iter_add, IH. exact Hk.
Qed.

(** Every positive number is a power of two times an odd number. *)
Lemma pow2_odd_decomposition (p : positive) :
  exists j t, 0 <= j /\ 0 < t /\ t mod 2 = 1 /\ Zpos p = 2 ^ j * t.
Proof.
  induction p as [p _|p IH|].
  - exists 0, (Zpos p~1). repeat split; try lia.
    rewrite Pos2Z.inj_xI. rewrite Z.add_comm, Z.mul_comm, Z.mod_add by lia.
    reflexivity.
  - destruct IH as (j & t & Hj & Ht & Hodd & Hp).
    exists (j + 1), t. repeat split; try lia.
    rewrite Pos2Z.inj_xO, Hp, Z.pow_add_r by lia. ring.
  - exists 0, 1. repeat split; lia.
Qed.

(** For [0 < k < 2^32] some multiple of [k] is a multiple of [2^32] plus a
    power of two below [2^32]. *)
Lemma multiple_reaches_pow2 k :
  0 < k < 2 ^ 32 ->
  exists j u w, 0 <= j <= 31 /\ 0 <= u /\ 0 <= w /\
                u * k = w * 2 ^ 32 + 2 ^ j.
Proof.
  intros Hk. destruct k as [|p|p]; try lia.
  destruct (pow2_odd_decomposition p) as (j & t & Hj & Ht & Hodd & Hp).
  assert (Hpow : 0 < 2 ^ j) by (apply Z.pow_pos_nonneg; lia).
  assert (Hj31 : j <= 31).
  { destruct (Z.le_gt_cases j 31) as [|Hgt]; [assumption|exfalso].
    assert (2 ^ 32 <= 2 ^ j) by (apply Z.pow_le_mono_r; lia). nia. }
  set (m := 2 ^ (32 - j)).
  assert (Hm : 2 <= m).
  { unfold m. change 2 with (2 ^ 1) at 1. apply Z.pow_le_mono_r; lia. }
  assert (Hco : Z.coprime t m).
  { unfold m. apply Z.coprime_pow_r; [lia|].
    unfold Z.coprime. rewrite <- Z.gcd_mod_l, Hodd. reflexivity. }
  pose proof (Z.invmod_coprime t m Hm Hco) as Hinv.
  pose proof (Z.mod_invmod m t) as Hred.
  pose proof (Z.mod_pos_bound (Z.invmod t m) m ltac:(lia)) as Hu.
  rewrite Hred in Hu.
  pose proof (Z.div_mod (Z.invmod t m * t) m ltac:(lia)) as Hdiv.
  rewrite Hinv in Hdiv.
  assert (Hw : 0 <= Z.invmod t m * t / m) by (apply Z.div_pos; nia).
  assert (E : Z.invmod t m * Z.pos p = Z.invmod t m * t / m * 2 ^ 32 + 2 ^ j).
  { rewrite Hp.
    replace (2 ^ 32) with (m * 2 ^ j)
      by (unfold m; rewrite <- Z.pow_add_r by lia; f_equal; lia).
    nia. }
  exists j, (Z.invmod t m), (Z.invmod t m * t / m).
  split; [lia|]. split; [lia|]. split; [exact Hw|exact E].
Qed.

(** No number of calls below [2^32] brings the seed back. *)
Lemma iter_next_no_return k g :
  0 <= g < 2 ^ 32 -> (0 < k < 2 ^ 32)%N -> N.iter k next g <> g.
Proof.
  intros Hg Hk Hret.
  destruct (multiple_reaches_pow2 (Z.of_N k)) as (j & u & w & Hj & Hu & Hw & E);
    [lia|].
  assert (EN : (Z.to_N u * k = 2 ^ Z.to_N j + Z.to_N w * 2 ^ 32)%N).
  { apply N2Z.inj.
    rewrite N2Z.inj_mul, N2Z.inj_add, N2Z.inj_mul, !N2Z.inj_pow, !Z2N.id by lia.
    change (Z.of_N 2) with 2. change (Z.of_N 32) with 32. lia. }
  pose proof (iter_next_multiple k g Hret (Z.to_N u)) as H1.
  rewrite EN, N.iter_add in H1.
  rewrite (iter_next_multiple (2 ^ 32) g (iter_next_full g Hg)) in H1.
  pose proof (iter_next_multiple _ g H1 (2 ^ (31 - Z.to_N j))) as H2.
  rewrite <- N.pow_add_r in H2.
  replace (31 - Z.to_N j + Z.to_N j)%N with 31%N in H2 by lia.
  rewrite iter_next_half in H2 by exact Hg.
  destruct (Z.lt_ge_cases g (2 ^ 31)).
  - rewrite Z.mod_small in H2; lia.
  - replace (g + 2 ^ 31) with (g - 2 ^ 31 + 1 * 2 ^ 32) in H2 by lia.
    rewrite Z.mod_add, Z.mod_small in H2; lia.
Qed.

(** The generator has full period: from any seed word, [2^32] calls of
    [fast_rand] bring [g_seed] back to its value, and no smaller positive
    number of calls does. *)
Theorem fast_rand_full_period (st : globals) (k : N)
    (Hseed : 0 <= g_seed st < 2 ^ 32) (Hk : (0 < k < 2 ^ 32)%N) :
  g_seed (fast_rand_iter k st) <> g_seed st /\
  g_seed (fast_rand_iter (2 ^ 32) st) = g_seed st.
Proof.
  rewrite !fast_rand_iter_seed. split.
  - now apply iter_next_no_return.
  - now apply iter_next_full.
Qed.

Lemma fast_rand_full_period_witness :
  g_seed (fast_rand_iter 5 (mkGlobals 0 7)) <> 7 /\
  g_seed (fast_rand_iter (2 ^ 32) (mkGlobals 0 7)) = 7.
Proof.
  apply (fast_rand_full_period (mkGlobals 0 7) 5); cbn [g_seed]; lia.
Defined.

(** The inverse of the seed update: 3115528533 is the inverse of 214013
    modulo [2^32]. *)
Lemma next_left_inverse g :
  0 <= g < 2 ^ 32 ->
  to_uint32 (3115528533 * (next g - 2531011)) = g.
Proof.
  intros Hg. unfold next, to_uint32.
  pose proof (Z.div_mod (214013 * g + 2531011) (2 ^ 32) ltac:(lia)) as Hd.
  replace (3115528533 * ((214013 * g + 2531011) mod 2 ^ 32 - 2531011))
    with (g + (155243 * g
               - 3115528533 * ((214013 * g + 2531011) / 2 ^ 32)) * 2 ^ 32)
    by lia.
  rewrite Z.mod_add, Z.mod_small; lia.
Qed.

(** Two different seed words never lead to the same next seed word: if a
    call of [fast_rand] leaves the same [g_seed] in two runs, the runs had
    the same [g_seed] before the call. *)
Theorem fast_rand_never_merges_seeds (st1 st2 : globals)
    (H1 : 0 <= g_seed st1 < 2 ^ 32) (H2 : 0 <= g_seed st2 < 2 ^ 32)
    (Hnext : g_seed (snd (fast_rand st1)) = g_seed (snd (fast_rand st2))) :
  g_seed st1 = g_seed st2.
Proof.
  unfold fast_rand in Hnext. cbn [snd g_seed] in Hnext.
  fold (next (g_seed st1)) in Hnext. fold (next (g_seed st2)) in Hnext.
  rewrite <- (next_left_inverse (g_seed st1) H1).
  rewrite <- (next_left_inverse (g_seed st2) H2).
  now rewrite Hnext.
Qed.

Lemma fast_rand_never_merges_seeds_witness :
  g_seed (mkGlobals 0 99) = g_seed (mkGlobals 1 99).
Proof.
  apply (fast_rand_never_merges_seeds (mkGlobals 0 99) (mkGlobals 1 99));
    [cbn; lia | cbn; lia | reflexivity].
Defined.

Lemma iter_next_injective k : forall g1 g2,
  0 <= g1 < 2 ^ 32 -> 0 <= g2 < 2 ^ 32 ->
  N.iter k next g1 = N.iter k next g2 -> g1 = g2.
Proof.
  induction k as [|k IH] using N.peano_ind; intros g1 g2 H1 H2 E.
  - exact E.
  - rewrite !N.iter_succ in E.
    apply IH; [assumption..|].
    rewrite <- (next_left_inverse (N.iter k next g1))
      by now apply iter_next_range.
    rewrite <- (next_left_inverse (N.iter k next g2))
      by now apply iter_next_range.
    now rewrite E.
Qed.

(** Two runs seeded by [fast_srand] with different [int] seeds never hold
    the same [g_seed] after the same number of [fast_rand] calls. *)
Theorem distinct_seeds_stay_distinct (seed1 seed2 : Z) (st1 st2 : globals)
    (k : N) (H1 : is_int32 seed1) (H2 : is_int32 seed2)
    (Hsame : g_seed (fast_rand_iter k (fast_srand seed1 st1))
             = g_seed (fast_rand_iter k (fast_srand seed2 st2))) :
  seed1 = seed2.
Proof.
  rewrite !fast_rand_iter_seed in Hsame. cbn [fast_srand g_seed] in Hsame.
  apply iter_next_injective in Hsame; try apply to_uint32_range.
  unfold is_int32, to_uint32 in *.
  revert Hsame. Z.div_mod_to_equations. lia.
Qed.

Lemma distinct_seeds_stay_distinct_witness : -5 = -5.
Proof.
  apply (distinct_seeds_stay_distinct (-5) (-5) (mkGlobals 0 1) (mkGlobals 1 2) 3);
    [unfold is_int32; lia | unfold is_int32; lia | reflexivity].
Defined.

End RngPeriod.

(** ** More on [pick_bits] and [put_bits] *)

Module BitFields.
Import CInt CIntFacts Grain GrainProps.

Lemma to_int64_to_uint64 v : is_int64 v -> to_int64 (to_uint64 v) = v.
Proof.
  unfold is_int64, to_int64, to_uint64. intros Hv.
  Z.div_mod_to_equations. lia.
Qed.

(** With [sz >= 64] no mask is applied: [pick_bits] returns the word shifted
    right by [lsb] as an unsigned word; for [lsb = 0] that is the word
    itself, negative values included. *)
Theorem pick_bits_unmasked (lsb sz value : Z)
    (Hsz : 64 <= sz) (Hlsb : 0 <= lsb <= 63) (Hv : is_int64 value) :
  pick_bits lsb sz value
  = if lsb =? 0 then value else to_uint64 value / 2 ^ lsb.
Proof.
  unfold pick_bits.
  destruct (Z.ltb_spec sz 64) as [|_]; [lia|].
  destruct (Z.eqb_spec lsb 0) as [->|Hnz].
  - rewrite Z.shiftr_0_r. now apply to_int64_to_uint64.
  - rewrite Z.shiftr_div_pow2 by lia.
    apply to_int64_small. unfold is_int64.
    pose proof (to_uint64_range value) as Hu.
    assert (Hp : 2 <= 2 ^ lsb).
    { change 2 with (2 ^ 1) at 1. apply Z.pow_le_mono_r; lia. }
    assert (0 <= to_uint64 value / 2 ^ lsb) by (apply Z.div_pos; lia).
    assert (to_uint64 value / 2 ^ lsb < 2 ^ 63); [|lia].
    apply Z.div_lt_upper_bound; nia.
Qed.

Lemma pick_bits_unmasked_witness :
  pick_bits 0 64 (-5) = -5.
Proof.
  apply (pick_bits_unmasked 0 64 (-5)); unfold is_int64; lia.
Defined.

(** The field above bit [k] and the field below it make up the word:
    nothing is lost and nothing is read twice. *)
Theorem pick_bits_partition (k value : Z) (Hk : 1 <= k <= 63) :
  pick_bits k (64 - k) value * 2 ^ k + pick_bits 0 k value = to_uint64 value.
Proof.
  rewrite !pick_bits_spec by lia.
  change (2 ^ 0) with 1. rewrite Z.div_1_r.
  pose proof (to_uint64_range value) as Hu.
  assert (Hp : 0 < 2 ^ k) by (apply Z.pow_pos_nonneg; lia).
  assert (Hhigh : 0 <= to_uint64 value / 2 ^ k < 2 ^ (64 - k)).
  { split; [apply Z.div_pos; lia|].
    apply Z.div_lt_upper_bound; [lia|].
    rewrite <- Z.pow_add_r by lia.
    replace (k + (64 - k)) with 64 by lia. lia. }
  rewrite (Z.mod_small _ _ Hhigh).
  pose proof (Z.div_mod (to_uint64 value) (2 ^ k) ltac:(lia)). lia.
Qed.

Lemma pick_bits_partition_witness :
  pick_bits 32 (64 - 32) (-2) * 2 ^ 32 + pick_bits 0 32 (-2) = to_uint64 (-2).
Proof. apply (pick_bits_partition 32 (-2)). lia. Defined.

Lemma pick_bits_testbit lsb sz value i :
  0 <= lsb -> 0 <= sz < 64 -> 0 <= i ->
  Z.testbit (pick_bits lsb sz value) i
  = (i <? sz) && Z.testbit (to_uint64 value) (i + lsb).
Proof.
  intros Hl Hs Hi. rewrite pick_bits_spec by lia.
  rewrite Z.testbit_mod_pow2 by lia.
  now rewrite Z.div_pow2_bits by lia.
Qed.

Lemma to_uint64_pick_bits lsb sz value :
  0 <= lsb -> 0 <= sz < 64 ->
  to_uint64 (pick_bits lsb sz value) = pick_bits lsb sz value.
Proof.
  intros Hl Hs. apply to_uint64_small.
  rewrite pick_bits_spec by lia.
  pose proof (Z.mod_pos_bound (to_uint64 value / 2 ^ lsb) (2 ^ sz)
                ltac:(apply Z.pow_pos_nonneg; lia)).
  assert (2 ^ sz < 2 ^ 64) by (apply Z.pow_lt_mono_r; lia). lia.
Qed.

(** A field of a field is a field of the word: the offsets add up and the
    width is the narrower of the inner width and what the outer field still
    has above the inner offset. *)
Theorem pick_bits_of_pick_bits (l1 s1 l2 s2 value : Z)
    (Hl1 : 0 <= l1) (Hs1 : 0 <= s1 < 64)
    (Hl2 : 0 <= l2 <= s1) (Hs2 : 0 <= s2 < 64) (Hsum : l1 + l2 <= 63) :
  pick_bits l2 s2 (pick_bits l1 s1 value)
  = pick_bits (l1 + l2) (Z.min s2 (s1 - l2)) value.
Proof.
  apply Z.bits_inj'. intros i Hi.
  rewrite !pick_bits_testbit by lia.
  rewrite to_uint64_pick_bits by lia.
  rewrite pick_bits_testbit by lia.
  replace (i + l2 + l1) with (i + (l1 + l2)) by lia.
  destruct (Z.ltb_spec i s2), (Z.ltb_spec (i + l2) s1),
    (Z.ltb_spec i (Z.min s2 (s1 - l2))); cbn [andb]; try reflexivity; lia.
Qed.

Lemma pick_bits_of_pick_bits_witness :
  pick_bits 4 8 (pick_bits 16 32 (-1)) = pick_bits (16 + 4) (Z.min 8 (32 - 4)) (-1).
Proof. apply (pick_bits_of_pick_bits 16 32 4 8 (-1)); lia. Defined.

Lemma pick_bits_range lsb sz value :
  0 <= lsb -> 0 <= sz < 64 -> 0 <= pick_bits lsb sz value < 2 ^ sz.
Proof.
  intros Hl Hs. rewrite pick_bits_spec by lia.
  apply Z.mod_pos_bound. apply Z.pow_pos_nonneg; lia.
Qed.

(** [put_bits] on a field that fits below bit 31. *)
Lemma put_bits_fits lsb size val :
  0 <= lsb -> 0 <= size -> lsb + size <= 31 ->
  put_bits lsb size val = Some (pick_bits 0 size val * 2 ^ lsb) /\
  0 <= pick_bits 0 size val * 2 ^ lsb < 2 ^ (lsb + size).
Proof.
  intros Hl Hs Hfit.
  destruct (pick_bits_range 0 size val) as [Hlo Hhi]; [lia..|].
  assert (Hp : 0 < 2 ^ lsb) by (apply Z.pow_pos_nonneg; lia).
  assert (Hw : 0 <= pick_bits 0 size val * 2 ^ lsb < 2 ^ (lsb + size)).
  { rewrite Z.pow_add_r by lia. nia. }
  assert (Hle : 2 ^ (lsb + size) <= 2 ^ 31) by (apply Z.pow_le_mono_r; lia).
  assert (Hm : pick_bits 0 size val < 2 ^ 31).
  { assert (2 ^ size <= 2 ^ 31) by (apply Z.pow_le_mono_r; lia). lia. }
  split; [|exact Hw].
  unfold put_bits.
  rewrite to_int32_small by (unfold is_int32; lia).
  rewrite Z.shiftl_mul_pow2 by lia.
  destruct (Z.leb_spec 0 lsb); [|lia].
  destruct (Z.ltb_spec lsb 32); [|lia].
  destruct (Z.leb_spec (- 2 ^ 31) (pick_bits 0 size val * 2 ^ lsb)); [|lia].
  destruct (Z.ltb_spec (pick_bits 0 size val * 2 ^ lsb) (2 ^ 31)); [|lia].
  reflexivity.
Qed.

(** A field placed by [put_bits] is read back by [pick_bits] at the same
    offset and width, provided the field lies below bit 31: the bits of
    [val] below [size] come back, the bits below [lsb] are clear, and so are
    the bits from [lsb + size] upwards. *)
Theorem put_bits_pick_bits (lsb size val : Z)
    (Hlsb : 0 <= lsb) (Hsize : 0 <= size) (Hfit : lsb + size <= 31) :
  exists w, put_bits lsb size val = Some w /\
            pick_bits lsb size w = pick_bits 0 size val /\
            pick_bits 0 lsb w = 0 /\
            0 <= w < 2 ^ (lsb + size).
Proof.
  destruct (put_bits_fits lsb size val Hlsb Hsize Hfit) as [Hput Hw].
  destruct (pick_bits_range 0 size val) as [Hlo Hhi]; [lia..|].
  assert (Hp : 0 < 2 ^ lsb) by (apply Z.pow_pos_nonneg; lia).
  assert (Hle : 2 ^ (lsb + size) <= 2 ^ 31) by (apply Z.pow_le_mono_r; lia).
  exists (pick_bits 0 size val * 2 ^ lsb).
  split; [exact Hput|]. split; [|split; [|exact Hw]].
  - rewrite (pick_bits_spec lsb size) by lia.
    rewrite to_uint64_small by lia.
    rewrite Z.div_mul by lia. apply Z.mod_small. lia.
  - rewrite (pick_bits_spec 0 lsb) by lia.
    rewrite to_uint64_small by lia.
    change (2 ^ 0) with 1. rewrite Z.div_1_r. apply Z.mod_mul. lia.
Qed.

Lemma put_bits_pick_bits_witness :
  exists w, put_bits 8 12 (-1) = Some w /\
            pick_bits 8 12 w = pick_bits 0 12 (-1) /\
            pick_bits 0 8 w = 0 /\
            0 <= w < 2 ^ (8 + 12).
Proof. apply (put_bits_pick_bits 8 12 (-1)); lia. Defined.

Lemma testbit_put_field p l i :
  0 <= l -> 0 <= i ->
  Z.testbit (p * 2 ^ l) i = (l <=? i) && Z.testbit p (i - l).
Proof.
  intros Hl Hi. destruct (Z.leb_spec l i) as [Hle|Hlt]; cbn [andb].
  - replace i with (l + (i - l)) at 1 by lia.
    apply Z.mul_pow2_bits_add. lia.
  - apply Z.mul_pow2_bits_low. lia.
Qed.

(** Two fields placed by [put_bits] at ranges that do not overlap, joined
    with [|], are both read back by [pick_bits]. *)
Theorem put_bits_two_fields (l1 s1 l2 s2 a b : Z)
    (Hl1 : 0 <= l1) (Hs1 : 0 <= s1) (Hbelow : l1 + s1 <= l2)
    (Hs2 : 0 <= s2) (Hfit : l2 + s2 <= 31) :
  exists w1 w2,
    put_bits l1 s1 a = Some w1 /\ put_bits l2 s2 b = Some w2 /\
    pick_bits l1 s1 (Z.lor w1 w2) = pick_bits 0 s1 a /\
    pick_bits l2 s2 (Z.lor w1 w2) = pick_bits 0 s2 b.
Proof.
  destruct (put_bits_fits l1 s1 a) as [Hp1 Hw1]; [lia..|].
  destruct (put_bits_fits l2 s2 b) as [Hp2 Hw2]; [lia..|].
  set (w1 := pick_bits 0 s1 a * 2 ^ l1) in *.
  set (w2 := pick_bits 0 s2 b * 2 ^ l2) in *.
  exists w1, w2. split; [exact Hp1|]. split; [exact Hp2|].
  assert (Hu : to_uint64 (Z.lor w1 w2) = Z.lor w1 w2).
  { apply to_uint64_small.
    assert (0 <= Z.lor w1 w2) by (apply Z.lor_nonneg; lia).
    assert (0 <= Z.land w1 w2) by (apply Z.land_nonneg; lia).
    pose proof (Z.add_lor_land w1 w2).
    assert (2 ^ (l1 + s1) <= 2 ^ 31) by (apply Z.pow_le_mono_r; lia).
    assert (2 ^ (l2 + s2) <= 2 ^ 31) by (apply Z.pow_le_mono_r; lia).
    lia. }
  split; apply Z.bits_inj'; intros i Hi;
    rewrite !pick_bits_testbit by lia;
    rewrite Hu, Z.lor_spec; unfold w1, w2;
    rewrite !testbit_put_field by lia;
    rewrite !pick_bits_testbit by lia;
    rewrite !Z.add_0_r.
  - destruct (Z.ltb_spec i s1); cbn [andb]; [|reflexivity].
    destruct (Z.leb_spec l1 (i + l1)); [|lia].
    destruct (Z.leb_spec l2 (i + l1)); [lia|]. cbn [andb].
    replace (i + l1 - l1) with i by lia.
    destruct (Z.ltb_spec i s1); [|lia]. cbn [andb].
    now rewrite orb_false_r.
  - destruct (Z.ltb_spec i s2); cbn [andb]; [|reflexivity].
    destruct (Z.leb_spec l2 (i + l2)); [|lia].
    destruct (Z.ltb_spec (i + l2 - l1) s1); [lia|].
    rewrite andb_false_r. cbn [andb orb].
    replace (i + l2 - l2) with i by lia.
    destruct (Z.ltb_spec i s2); [|lia]. reflexivity.
Qed.

Lemma put_bits_two_fields_witness :
  exists w1 w2,
    put_bits 0 10 1000 = Some w1 /\ put_bits 10 20 (-3) = Some w2 /\
    pick_bits 0 10 (Z.lor w1 w2) = pick_bits 0 10 1000 /\
    pick_bits 10 20 (Z.lor w1 w2) = pick_bits 0 20 (-3).
Proof. apply (put_bits_two_fields 0 10 10 20 1000 (-3)); lia. Defined.

(** [put_bits] looks at the [size] low bits of [val] only: two values that
    agree on them are placed alike, whatever their higher bits. *)
Theorem put_bits_low_bits_only (lsb size val val' : Z)
    (Hsize : 0 <= size < 64) (Hlow : val mod 2 ^ size = val' mod 2 ^ size) :
  put_bits lsb size val = put_bits lsb size val'.
Proof.
  assert (E : pick_bits 0 size val = pick_bits 0 size val').
  { apply Z.bits_inj'. intros i Hi.
    rewrite !pick_bits_testbit by lia. rewrite Z.add_0_r.
    destruct (Z.ltb_spec i size); cbn [andb]; [|reflexivity].
    unfold to_uint64. rewrite !Z.mod_pow2_bits_low by lia.
    rewrite <- (Z.mod_pow2_bits_low val size i) by lia.
    rewrite <- (Z.mod_pow2_bits_low val' size i) by lia.
    now rewrite Hlow. }
  unfold put_bits. now rewrite E.
Qed.

Lemma put_bits_low_bits_only_witness :
  put_bits 3 4 5 = put_bits 3 4 (5 + 16 * 123).
Proof. apply (put_bits_low_bits_only 3 4 5 (5 + 16 * 123)); [lia|reflexivity]. Defined.

End BitFields.

(** ** More on [pack_vals], [get_C] and [get_nmax] *)

Module PackFields.
Import CInt CIntFacts Grain GrainProps FloatFacts PackProps.

Lemma float_to_int32_range C c : float_to_int32 C = Some c -> is_int32 c.
Proof.
  unfold float_to_int32, is_int32. destruct C as [s|s| |s m e]; try discriminate.
  - intros [= <-]. lia.
  - destruct (Z.leb_spec (- 2 ^ 31) (cond_Zopp s (Z.shiftl (Zpos m) e)));
      cbn [andb]; [|discriminate].
    destruct (Z.ltb_spec (cond_Zopp s (Z.shiftl (Zpos m) e)) (2 ^ 31));
      [|discriminate].
    intros [= <-]. lia.
Qed.

(** A negative [int32_t], promoted to 64 bits, has all its high bits set
    and swallows whatever is ORed into them. *)
Lemma lor_high_negative a c :
  - 2 ^ 31 <= c < 0 -> Z.lor (a * 2 ^ 32) c = c.
Proof.
  intros Hc. apply Z.bits_inj'. intros i Hi. rewrite Z.lor_spec.
  destruct (Z.lt_ge_cases i 32) as [Hlt|Hge].
  - now rewrite Z.mul_pow2_bits_low by lia.
  - assert (Z.testbit c i = true) as ->; [|apply orb_true_r].
    apply Z.bits_above_log2_neg; [lia|].
    destruct (Z.eq_dec (Z.pred (- c)) 0) as [->|Hnz]; [cbn; lia|].
    assert (Z.log2 (Z.pred (- c)) < 31) by (apply Z.log2_lt_pow2; lia). lia.
Qed.

(** The low field of the packed word always holds [(int32_t)C], whatever
    [nmax] is, and the packed word is an [int64_t] without wrap-around. *)
Theorem pack_vals_low_field (C : float) (nmax c : Z)
    (Hnmax : is_int32 nmax) (Hc : float_to_int32 C = Some c) :
  exists w, pack_vals C nmax = Some w /\
            is_int64 w /\
            to_int32 (pick_bits 0 32 w) = c.
Proof.
  pose proof (float_to_int32_range C c Hc) as Hr.
  unfold is_int32, is_int64 in *.
  unfold pack_vals. rewrite Hc.
  rewrite Z.shiftl_mul_pow2 by lia.
  rewrite to_int64_small by (unfold is_int64; lia).
  eexists. split; [reflexivity|].
  destruct (Z.lt_ge_cases c 0) as [Hneg|Hpos].
  - rewrite lor_high_negative by lia. split; [lia|].
    rewrite pick_bits_spec by lia. unfold to_uint64, to_int32.
    change (2 ^ 0) with 1. rewrite Z.div_1_r.
    Z.div_mod_to_equations. lia.
  - pose proof (Z.add_lor_land (nmax * 2 ^ 32) c) as H.
    rewrite land_high_low in H by lia.
    replace (Z.lor (nmax * 2 ^ 32) c) with (nmax * 2 ^ 32 + c) by lia.
    split; [lia|].
    rewrite pick_low by (unfold is_int32; lia).
    apply to_int32_small. unfold is_int32. lia.
Qed.

Lemma pack_vals_low_field_witness :
  exists w, pack_vals float_minus_one 123 = Some w /\
            is_int64 w /\
            to_int32 (pick_bits 0 32 w) = -1.
Proof.
  apply (pack_vals_low_field float_minus_one 123 (-1));
    [unfold is_int32; lia | reflexivity].
Defined.

(** When [(int32_t)C] is not negative, [get_nmax] gives [nmax] back from
    the packed word, and [get_C] gives [C] rounded towards zero to an
    integer: [(float)(int32_t)C]. *)
Theorem pack_vals_truncates_C (C : float) (nmax c : Z)
    (Hnmax : is_int32 nmax) (Hc : float_to_int32 C = Some c) (Hpos : 0 <= c) :
  exists w, pack_vals C nmax = Some w /\
            w = nmax * 2 ^ 32 + c /\
            get_nmax w = nmax /\
            get_C w = int64_to_float c.
Proof.
  pose proof (float_to_int32_range C c Hc) as Hr. unfold is_int32 in Hr.
  destruct (pack_vals_nonneg C nmax c Hnmax Hc ltac:(lia)) as (Hp & HC & Hn).
  exists (nmax * 2 ^ 32 + c). repeat split; assumption.
Qed.

Lemma pack_vals_truncates_C_witness :
  exists w, pack_vals (S754_finite false 12582912 (-22)) (-8) = Some w /\
            w = -8 * 2 ^ 32 + 3 /\
            get_nmax w = -8 /\
            get_C w = int64_to_float 3.
Proof.
  apply (pack_vals_truncates_C (S754_finite false 12582912 (-22)) (-8) 3);
    [unfold is_int32; lia | reflexivity | lia].
Defined.

(** When [(int32_t)C] is negative, the packed word is [(int32_t)C] itself,
    sign extended: it does not depend on [nmax], [get_nmax] reads -1 from it
    and [get_C] reads the low field as the unsigned number
    [(int32_t)C + 2^32]. *)
Theorem pack_vals_negative_C (C : float) (nmax c : Z)
    (Hnmax : is_int32 nmax) (Hc : float_to_int32 C = Some c) (Hneg : c < 0) :
  pack_vals C nmax = Some c /\
  get_nmax c = -1 /\
  get_C c = int64_to_float (c + 2 ^ 32).
Proof.
  pose proof (float_to_int32_range C c Hc) as Hr.
  unfold is_int32 in *.
  split; [|split].
  - unfold pack_vals. rewrite Hc.
    rewrite Z.shiftl_mul_pow2 by lia.
    rewrite to_int64_small by (unfold is_int64; lia).
    now rewrite lor_high_negative by lia.
  - unfold get_nmax. rewrite pick_bits_spec by lia.
    unfold to_uint64, to_int32. Z.div_mod_to_equations. lia.
  - unfold get_C. f_equal. rewrite pick_bits_spec by lia.
    unfold to_uint64. change (2 ^ 0) with 1. rewrite Z.div_1_r.
    Z.div_mod_to_equations. lia.
Qed.

Lemma pack_vals_negative_C_witness :
  pack_vals (S754_finite true 12582912 (-22)) 77 = Some (-3) /\
  get_nmax (-3) = -1 /\
  get_C (-3) = int64_to_float (-3 + 2 ^ 32).
Proof.
  apply (pack_vals_negative_C (S754_finite true 12582912 (-22)) 77 (-3));
    [unfold is_int32; lia | reflexivity | lia].
Defined.

End PackFields.

(** ** Reading a packed word and packing it again *)

Module Repack.
Import CInt CIntFacts Grain GrainProps FloatFacts PackProps.

(** [digits2_pos p] is the number of binary digits of [p]. *)
Lemma digits2_pos_bounds p :
  2 ^ (Zpos (digits2_pos p) - 1) <= Zpos p < 2 ^ Zpos (digits2_pos p).
Proof.
  induction p as [p IH|p IH|]; cbn [digits2_pos]; [| |cbn; lia];
    rewrite Pos2Z.inj_succ;
    replace (Z.succ (Zpos (digits2_pos p)) - 1)
      with (Z.succ (Zpos (digits2_pos p) - 1)) by lia;
    rewrite !Z.pow_succ_r by lia; lia.
Qed.

Lemma fexp_small d :
  1 <= d <= 127 -> fexp prec emax d = d - 24.
Proof. intros Hd. unfold fexp, emin, prec, emax. lia. Qed.

(** The conversion of a positive integer below [2^24] is exact. *)
Lemma binary_round_small p :
  Zpos p < 2 ^ 24 ->
  exists m e, binary_round prec emax false p 0 = S754_finite false m e /\
              bounded prec emax m e = true /\
              Z.shiftl (Zpos m) e = Zpos p.
Proof.
  intros Hn.
  pose proof (digits2_pos_bounds p) as Hd.
  set (d := Zpos (digits2_pos p)) in *.
  assert (Hd1 : 1 <= d) by (unfold d; lia).
  assert (Hd24 : d <= 24).
  { destruct (Z.le_gt_cases d 24) as [|Hgt]; [assumption|exfalso].
    assert (2 ^ 24 <= 2 ^ (d - 1)) by (apply Z.pow_le_mono_r; lia). lia. }
  destruct (Z.eq_dec d 24) as [E|NE].
  - assert (Hb : bounded prec emax p 0 = true).
    { unfold bounded, canonical_mantissa. fold d.
      rewrite Z.add_0_r, fexp_small by lia. rewrite E. reflexivity. }
    exists p, 0. split; [now apply binary_round_canonical|].
    split; [exact Hb|apply Z.shiftl_0_r].
  - set (k := Z.to_pos (24 - d)).
    assert (Hk : Zpos k = 24 - d) by (unfold k; rewrite Z2Pos.id; lia).
    assert (Hb : bounded prec emax (Pos.iter xO p k) (Zneg k) = true).
    { unfold bounded, canonical_mantissa.
      rewrite digits2_pos_shift, Pos2Z.inj_add. fold d.
      replace (d + Zpos k + Zneg k) with d by lia.
      rewrite fexp_small by lia.
      replace (d - 24) with (Zneg k) by lia.
      rewrite Z.eqb_refl. cbn [andb]. unfold emax, prec. apply Z.leb_le. lia. }
    exists (Pos.iter xO p k), (Zneg k).
    split; [exact (binary_round_aligned false p k Hb)|].
    split; [exact Hb|].
    rewrite Zpos_iter_xO.
    change (Zneg k) with (- Zpos k).
    rewrite <- Z.shiftr_opp_r, Z.opp_involutive.
    now rewrite Z.shiftr_shiftl_l, Z.sub_diag, Z.shiftl_0_r by lia.
Qed.

(** An integer below [2^24] converts to [float] and back without change. *)
Lemma int_float_int n :
  0 <= n < 2 ^ 24 ->
  is_float (int64_to_float n) /\ float_to_int32 (int64_to_float n) = Some n.
Proof.
  intros Hn. unfold int64_to_float, is_float.
  destruct n as [|p|p]; [split; reflexivity| |lia].
  cbn [binary_normalize].
  destruct (binary_round_small p ltac:(lia)) as (m & e & -> & Hb & Hv).
  split; [exact Hb|].
  unfold float_to_int32. cbn [cond_Zopp]. rewrite Hv.
  destruct (Z.leb_spec (- 2 ^ 31) (Zpos p)); [|lia].
  destruct (Z.ltb_spec (Zpos p) (2 ^ 31)); [|lia]. reflexivity.
Qed.

(** Reading both fields of a word and packing them again gives the word
    back, as long as the low field is below [2^24], where the conversion to
    [float] is exact. *)
Theorem unpack_pack (w : Z)
    (Hw : is_int64 w) (Hlow : pick_bits 0 32 w < 2 ^ 24) :
  pack_vals (get_C w) (get_nmax w) = Some w.
Proof.
  unfold get_C, get_nmax, pack_vals.
  assert (H0 : 0 <= pick_bits 0 32 w).
  { rewrite pick_bits_spec by lia. apply Z.mod_pos_bound. lia. }
  destruct (int_float_int (pick_bits 0 32 w) ltac:(lia)) as [_ ->].
  assert (Hn : is_int32 (to_int32 (pick_bits 32 32 w))).
  { unfold is_int32, to_int32.
    pose proof (Z.mod_pos_bound (pick_bits 32 32 w + 2 ^ 31) (2 ^ 32) ltac:(lia)).
    lia. }
  rewrite pack_word by (assumption || lia).
  f_equal. revert Hlow H0. rewrite !pick_bits_spec by lia.
  unfold is_int64, to_uint64, to_int32 in *.
  change (2 ^ 0) with 1. rewrite Z.div_1_r. intros Hlow H0.
  Z.div_mod_to_equations. lia.
Qed.

Lemma unpack_pack_witness :
  pack_vals (get_C (-4294967291)) (get_nmax (-4294967291)) = Some (-4294967291).
Proof.
  apply (unpack_pack (-4294967291)); [unfold is_int64; lia | vm_compute; reflexivity].
Defined.

End Repack.

(** ** What [get_C] can return *)

Module GetCRange.
Import CInt CIntFacts Grain GrainProps FloatFacts Repack.

Lemma shr_1_m mrs : 0 <= shr_m mrs -> shr_m (shr_1 mrs) = shr_m mrs / 2.
Proof.
  destruct mrs as [m r s]. cbn [shr_m shr_1]. intros Hm.
  destruct m as [|[p|p|]|p]; cbn [shr_m].
  - reflexivity.
  - rewrite Pos2Z.inj_xI. apply Z.div_unique with 1; lia.
  - rewrite Pos2Z.inj_xO. apply Z.div_unique with 0; lia.
  - reflexivity.
  - lia.
Qed.

Lemma iter_shr_1_m k : forall mrs,
  0 <= shr_m mrs ->
  shr_m (Pos.iter shr_1 mrs k) = shr_m mrs / 2 ^ Zpos k.
Proof.
  induction k as [|k IH] using Pos.peano_ind; intros mrs Hm.
  - cbn [Pos.iter]. now rewrite shr_1_m.
  - rewrite Pos.iter_succ_r, IH, shr_1_m by (rewrite ?shr_1_m by lia;
                                              try apply Z.div_pos; lia).
    rewrite Pos2Z.inj_succ, Z.pow_succ_r, Z.div_div by lia. reflexivity.
Qed.

Lemma round_nearest_even_step m l :
  round_nearest_even m l = m \/ round_nearest_even m l = m + 1.
Proof.
  unfold round_nearest_even. destruct l as [|[| |]]; auto.
  destruct (Z.even m); auto.
Qed.

Lemma digits2_pos_unique p d :
  2 ^ (d - 1) <= Zpos p < 2 ^ d -> Zpos (digits2_pos p) = d.
Proof.
  intros Hd. pose proof (digits2_pos_bounds p) as Hb.
  set (D := Zpos (digits2_pos p)) in *.
  assert (HD : 1 <= D) by (unfold D; lia).
  assert (1 <= d).
  { destruct (Z.le_gt_cases 1 d) as [|Hlt]; [assumption|exfalso].
    destruct (Z.eq_dec d 0) as [->|]; [cbn in Hd; lia|].
    rewrite (Z.pow_neg_r 2 d) in Hd by lia. lia. }
  destruct (Z.lt_trichotomy D d) as [Hlt|[E|Hgt]]; [exfalso|exact E|exfalso].
  - assert (2 ^ D <= 2 ^ (d - 1)) by (apply Z.pow_le_mono_r; lia). lia.
  - assert (2 ^ d <= 2 ^ (D - 1)) by (apply Z.pow_le_mono_r; lia). lia.
Qed.

(** A normal mantissa with an exponent in the range of [get_C]. *)
Lemma bounded_normal m e :
  Zpos (digits2_pos m) = 24 -> 0 <= e <= 100 -> bounded prec emax m e = true.
Proof.
  intros Hd He. unfold bounded, canonical_mantissa.
  rewrite Hd, fexp_small by lia.
  replace (24 + e - 24) with e by lia. rewrite Z.eqb_refl. cbn [andb].
  unfold emax, prec. apply Z.leb_le. lia.
Qed.

(** The conversion of an integer of 25 to 32 binary digits. *)
Lemma binary_round_large p :
  2 ^ 24 <= Zpos p < 2 ^ 32 ->
  exists m e, binary_round prec emax false p 0 = S754_finite false m e /\
              bounded prec emax m e = true.
Proof.
  intros Hp. pose proof (digits2_pos_bounds p) as Hd.
  set (d := Zpos (digits2_pos p)) in *.
  assert (Hd25 : 25 <= d).
  { destruct (Z.le_gt_cases 25 d) as [|Hlt]; [assumption|exfalso].
    assert (2 ^ d <= 2 ^ 24) by (apply Z.pow_le_mono_r; unfold d; lia). lia. }
  assert (Hd32 : d <= 32).
  { destruct (Z.le_gt_cases d 32) as [|Hgt]; [assumption|exfalso].
    assert (2 ^ 32 <= 2 ^ (d - 1)) by (apply Z.pow_le_mono_r; lia). lia. }
  set (k := Z.to_pos (d - 24)).
  assert (Hk : Zpos k = d - 24) by (unfold k; rewrite Z2Pos.id; lia).
  unfold binary_round. fold d.
  rewrite Z.add_0_r, fexp_small, shl_align_up by lia.
  unfold binary_round_aux, shr_fexp at 1.
  cbn [Zdigits2 shr_record_of_loc]. fold d.
  rewrite Z.add_0_r, fexp_small, Z.sub_0_r, <- Hk by lia.
  cbn [shr]. rewrite iter_pos_iter, Z.add_0_l.
  set (mrs := Pos.iter shr_1 _ k).
  assert (Hq : shr_m mrs = Zpos p / 2 ^ Zpos k).
  { unfold mrs. now rewrite iter_shr_1_m by (cbn; lia). }
  assert (Hpk : 0 < 2 ^ Zpos k) by (apply Z.pow_pos_nonneg; lia).
  assert (Hqr : 2 ^ 23 <= shr_m mrs < 2 ^ 24).
  { rewrite Hq.
    assert (E1 : 2 ^ (d - 1) = 2 ^ 23 * 2 ^ Zpos k).
    { rewrite <- Z.pow_add_r by lia. f_equal. lia. }
    assert (E2 : 2 ^ d = 2 ^ 24 * 2 ^ Zpos k).
    { rewrite <- Z.pow_add_r by lia. f_equal. lia. }
    split.
    - apply Z.div_le_lower_bound; lia.
    - apply Z.div_lt_upper_bound; lia. }
  set (m1 := round_nearest_even (shr_m mrs) (loc_of_shr_record mrs)).
  assert (Hm1 : 2 ^ 23 <= m1 <= 2 ^ 24).
  { unfold m1.
    destruct (round_nearest_even_step (shr_m mrs) (loc_of_shr_record mrs))
      as [-> | ->]; lia. }
  destruct m1 as [|m1p|m1p] eqn:Em1; try lia.
  destruct (Z.eq_dec (Zpos m1p) (2 ^ 24)) as [E24|N24].
  - assert (m1p = 16777216%positive) as -> by lia.
    exists 8388608%positive, (Zpos k + 1). split.
    + unfold shr_fexp. cbn [Zdigits2 shr_record_of_loc].
      change (Zpos (digits2_pos 16777216)) with 25.
      rewrite fexp_small by lia.
      replace (25 + Zpos k - 24 - Zpos k) with 1 by lia.
      cbn [shr SpecFloat.iter_pos shr_1 orb shr_m].
      destruct (Z.leb_spec (Zpos k + 1) (emax - prec)) as [|Hgt];
        [reflexivity|unfold emax, prec in Hgt; lia].
    + apply bounded_normal; [reflexivity|lia].
  - assert (Hdig : Zpos (digits2_pos m1p) = 24)
      by (apply digits2_pos_unique; lia).
    exists m1p, (Zpos k). split.
    + unfold shr_fexp. cbn [Zdigits2 shr_record_of_loc].
      rewrite Hdig, fexp_small by lia.
      replace (24 + Zpos k - 24 - Zpos k) with 0 by lia.
      cbn [shr shr_m].
      destruct (Z.leb_spec (Zpos k) (emax - prec)) as [|Hgt];
        [reflexivity|unfold emax, prec in Hgt; lia].
    + apply bounded_normal; [exact Hdig|lia].
Qed.

(** Whatever the word, [get_C] returns a [float] that is finite and not
    negative: never a NaN, never an infinity, never a negative number and
    never negative zero. *)
Theorem get_C_finite_nonneg (val : Z) :
  is_float (get_C val) /\
  (get_C val = S754_zero false \/
   exists m e, get_C val = S754_finite false m e).
Proof.
  unfold get_C.
  assert (Hn : 0 <= pick_bits 0 32 val < 2 ^ 32).
  { rewrite pick_bits_spec by lia. apply Z.mod_pos_bound. lia. }
  unfold int64_to_float, is_float.
  destruct (pick_bits 0 32 val) as [|p|p]; [| |lia].
  { split; [reflexivity|now left]. }
  cbn [binary_normalize].
  destruct (Z.lt_ge_cases (Zpos p) (2 ^ 24)) as [Hsmall|Hlarge].
  - destruct (binary_round_small p Hsmall) as (m & e & -> & Hb & _).
    split; [exact Hb|]. eauto.
  - destruct (binary_round_large p) as (m & e & -> & Hb).
    + lia.
    + split; [exact Hb|]. eauto.
Qed.

End GetCRange.
